(** * jrnl/util.py: title splitting, tag highlighting and slugs

    A shallow embedding of the text functions of [jrnl/util.py]
    ([split_title], [colorize], [highlight_tags_with_background_color],
    [slugify]) together with the small part of the Python runtime they rest
    on: [str] as a sequence of code points, [str.strip], and the fragment of
    the [re] engine that the module's patterns use. *)

From Stdlib Require Import String Ascii.
From Stdlib Require Import List NArith Bool Arith Lia.
Import ListNotations.

(** ** Python strings *)

Module Py.

(** A [str] is a sequence of Unicode code points. *)
Definition cp := N.
Definition text := list cp.

(** ASCII literals: [str "abc"] is the text of the three code points. *)
Definition str (s : string) : text :=
  List.map N_of_ascii (list_ascii_of_string s).

Definition LF : cp := 10%N.
Definition SPACE : cp := 32%N.
Definition HYPHEN : cp := 45%N.
Definition UNDERSCORE : cp := 95%N.

Definition in_range (lo hi c : cp) : bool := (lo <=? c)%N && (c <=? hi)%N.

(** [c in s] for a one-character string [c]. *)
Definition mem (c : cp) (s : text) : bool := existsb (N.eqb c) s.

(** [str.isspace] on one code point (CPython's [_PyUnicode_IsWhitespace]);
    [str.strip] without argument and [\s] in a [str] pattern use the same
    set. *)
Definition is_space (c : cp) : bool :=
  (in_range 0x09 0x0D c || in_range 0x1C 0x20 c || (c =? 0x85)
   || (c =? 0xA0) || (c =? 0x1680) || in_range 0x2000 0x200A c
   || (c =? 0x2028) || (c =? 0x2029) || (c =? 0x202F)
   || (c =? 0x205F) || (c =? 0x3000))%N.

(** [string.whitespace] and [string.punctuation]. *)
Definition whitespace : text := [32; 9; 10; 13; 11; 12]%N.
Definition punctuation : text :=
  str "!" ++ [34%N] ++ str "#$%&'()*+,-./:;<=>?@[\]^_`{|}~".

Fixpoint lstrip (s : text) : text :=
  match s with
  | c :: s' => if is_space c then lstrip s' else s
  | [] => []
  end.

Definition rstrip (s : text) : text := rev (lstrip (rev s)).

Definition strip (s : text) : text := rstrip (lstrip s).

(** [s.endswith(c)] for a one-character string [c]. *)
Definition endswith (s : text) (c : cp) : bool :=
  match rev s with
  | d :: _ => (d =? c)%N
  | [] => false
  end.

(** [all(char in alphabet for char in s)]. *)
Definition all_in (alphabet s : text) : bool :=
  forallb (fun c => mem c alphabet) s.

End Py.

Import Py.

(** ** The fragment of [re] used by the module

    Every pattern of the module is a concatenation of character classes,
    each taken once, optionally ([?]), any number of times ([*]) or at least
    once ([+]).  The matcher is the backtracking one of [re]: quantifiers are
    greedy and give characters back when the rest of the pattern fails. *)

Module Re.

Inductive quant := One | Opt | Star | Plus.

Definition item := ((cp -> bool) * quant)%type.
Definition pattern := list item.

(** A match object: [m.start()] and [m.end()]. *)
Record Match := mkMatch { m_start : nat; m_end : nat }.

(** [star p k s]: consume code points of class [p] greedily, then continue
    with [k]; on failure give one back and retry.  The result counts the
    code points consumed. *)
Fixpoint star (p : cp -> bool) (k : text -> option nat) (s : text)
  : option nat :=
  match s with
  | c :: s' =>
      if p c then
        match star p k s' with
        | Some n => Some (S n)
        | None => k s
        end
      else k s
  | [] => k []
  end.

(** [match_here r s]: length of the match of [r] anchored at the start of
    [s], if there is one. *)
Fixpoint match_here (r : pattern) (s : text) : option nat :=
  match r with
  | [] => Some 0
  | (p, q) :: r' =>
      match q with
      | One =>
          match s with
          | c :: s' => if p c then option_map S (match_here r' s') else None
          | [] => None
          end
      | Opt =>
          match s with
          | c :: s' =>
              if p c then
                match match_here r' s' with
                | Some n => Some (S n)
                | None => match_here r' s
                end
              else match_here r' s
          | [] => match_here r' []
          end
      | Star => star p (match_here r') s
      | Plus =>
          match s with
          | c :: s' =>
              if p c then option_map S (star p (match_here r') s') else None
          | [] => None
          end
      end
  end.

(** [r.search(s)], scanning from offset [i]: the leftmost match. *)
Fixpoint search_from (r : pattern) (s : text) (i : nat) : option Match :=
  match match_here r s with
  | Some n => Some (mkMatch i (i + n))
  | None =>
      match s with
      | [] => None
      | _ :: s' => search_from r s' (S i)
      end
  end.

Definition search (r : pattern) (s : text) : option Match :=
  search_from r s 0.

(** The language of a pattern, stated independently of the matcher. *)
Inductive matches : pattern -> text -> Prop :=
| M_nil : matches [] []
| M_one p r c w :
    p c = true -> matches r w -> matches ((p, One) :: r) (c :: w)
| M_opt_skip p r w : matches r w -> matches ((p, Opt) :: r) w
| M_opt_take p r c w :
    p c = true -> matches r w -> matches ((p, Opt) :: r) (c :: w)
| M_star p r u w :
    forallb p u = true -> matches r w -> matches ((p, Star) :: r) (u ++ w)
| M_plus p r c u w :
    p c = true -> forallb p u = true -> matches r w ->
    matches ((p, Plus) :: r) (c :: u ++ w).

End Re.

Import Re.

(** ** util.py: sentence splitting *)

Definition is_sentence_terminal (c : cp) : bool :=
  mem c [0x2E; 0x21; 0x3F; 0x203C; 0x203D; 0x2047; 0x2048; 0x2049; 0x3002;
         0xFE52; 0xFE57; 0xFF01; 0xFF0E; 0xFF1F; 0xFF61]%N.

Definition is_right_quote (c : cp) : bool :=
  mem c [0x27; 0x2019; 0x22; 0x201D]%N.

Definition is_closing_bracket (c : cp) : bool := mem c [0x5D; 0x29]%N.

(** [SENTENCE_SPLITTER]: a sentence terminal, an optional right quote,
    optional closing brackets and a sequence of required spaces. *)
Definition SENTENCE_SPLITTER : pattern :=
  [ (is_sentence_terminal, One); (is_right_quote, Opt);
    (is_closing_bracket, Star); (is_space, Plus) ].

Definition SENTENCE_SPLITTER_ONLY_NEWLINE : pattern :=
  [ (N.eqb LF, One) ].

(** [text[:n]] and [text[n:]] for [n >= 0]. *)
Definition slice_to (n : nat) (s : text) : text := firstn n s.
Definition slice_from (n : nat) (s : text) : text := skipn n s.

(** [split_title]: the newline is searched in the left-stripped text, the
    sentence end in the text itself; both offsets cut the text itself. *)
Definition split_title (t : text) : text * text :=
  match search SENTENCE_SPLITTER_ONLY_NEWLINE (lstrip t) with
  | Some sep => (strip (slice_to (m_end sep) t), strip (slice_from (m_end sep) t))
  | None =>
      match search SENTENCE_SPLITTER t with
      | Some sep =>
          (strip (slice_to (m_end sep) t), strip (slice_from (m_end sep) t))
      | None => (t, [])
      end
  end.


(** ** Tables of the Python runtime and of colorama

    [unicodedata], [str.lower], [str.upper] and [\w] read the Unicode
    Character Database, and [colorize] reads the attributes of
    [colorama.Fore] and [colorama.Style].  Neither table is part of the
    module: both are parameters of the embedding. *)

Module Unicode.

Record UCD := mkUCD {
  (** full compatibility decomposition of one code point *)
  decomposition : cp -> text;
  (** canonical combining class *)
  combining : cp -> N;
  (** [str.isalnum] on one code point *)
  isalnum : cp -> bool;
  (** full lower and upper case mappings of one code point *)
  lower_full : cp -> text;
  upper_full : cp -> text;
  (** the Cased and Case_Ignorable properties *)
  cased : cp -> bool;
  case_ignorable : cp -> bool
}.

Definition CAPITAL_SIGMA : cp := 0x3A3%N.
Definition SMALL_SIGMA : cp := 0x3C3%N.
Definition FINAL_SIGMA : cp := 0x3C2%N.

Section Strings.

Variable U : UCD.

(** [\w] in a [str] pattern: alphanumeric or underscore. *)
Definition is_word (c : cp) : bool := isalnum U c || (c =? UNDERSCORE)%N.

(** Canonical ordering: a code point of non-zero class moves in front of
    the code points of greater class that precede it.  [out] is the text
    ordered so far, last code point first. *)
Fixpoint reorder_insert (c : cp) (out : text) : text :=
  match out with
  | p :: out' =>
      if ((combining U c =? 0) || (combining U p =? 0)
          || (combining U p <=? combining U c))%N
      then c :: out
      else p :: reorder_insert c out'
  | [] => [c]
  end.

Definition canonical_order (s : text) : text :=
  rev (fold_left (fun out c => reorder_insert c out) s []).

(** [unicodedata.normalize("NFKD", s)]. *)
Definition NFKD (s : text) : text :=
  canonical_order (flat_map (decomposition U) s).

(** The first code point that is not case-ignorable is cased. *)
Fixpoint next_is_cased (s : text) : bool :=
  match s with
  | c :: s' => if case_ignorable U c then next_is_cased s' else cased U c
  | [] => false
  end.

(** Final_Sigma context; [before] is the text to the left, nearest code
    point first. *)
Definition final_sigma (before after : text) : bool :=
  next_is_cased before && negb (next_is_cased after).

Fixpoint lower_from (before s : text) : text :=
  match s with
  | c :: s' =>
      (if (c =? CAPITAL_SIGMA)%N
       then [if final_sigma before s' then FINAL_SIGMA else SMALL_SIGMA]
       else lower_full U c)
      ++ lower_from (c :: before) s'
  | [] => []
  end.

(** [s.lower()] and [s.upper()]. *)
Definition lower (s : text) : text := lower_from [] s.
Definition upper (s : text) : text := flat_map (upper_full U) s.

End Strings.

End Unicode.

Import Unicode.

Module Ansi.

Record Colorama := mkColorama {
  (** [getattr(colorama.Fore, name, None)] *)
  Fore : text -> option text;
  Fore_RESET : text;
  Style_BRIGHT : text;
  Style_RESET_ALL : text
}.

End Ansi.

Import Ansi.

(** ** More of [re]: [re.sub] and [re.split]

    A match found at some offset covers the next code points, which the
    scan then skips ([skip] counts them).  No pattern of the module matches
    the empty string; such a match is not acted upon here. *)

Fixpoint sub_from (r : pattern) (repl s : text) (skip : nat) : text :=
  match s with
  | [] => []
  | c :: s' =>
      match skip with
      | S k => sub_from r repl s' k
      | 0 =>
          match match_here r s with
          | Some (S n) => repl ++ sub_from r repl s' n
          | _ => c :: sub_from r repl s' 0
          end
      end
  end.

(** [re.sub(r, repl, s)]. *)
Definition re_sub (r : pattern) (repl s : text) : text := sub_from r repl s 0.

(** [re.split(r, s)] for a pattern [r] whose one capturing group spans the
    whole match: the texts between the matches alternate with the matches.
    [cur] is the text since the last match, last code point first. *)
Fixpoint split_from (r : pattern) (s : text) (skip : nat) (cur : text)
  : list text :=
  match s with
  | [] => [rev cur]
  | c :: s' =>
      match skip with
      | S k => split_from r s' k cur
      | 0 =>
          match match_here r s with
          | Some (S n) => rev cur :: firstn (S n) s :: split_from r s' n []
          | _ => split_from r s' 0 (c :: cur)
          end
      end
  end.

Definition re_split (r : pattern) (s : text) : list text := split_from r s 0 [].

(** ** util.py: colours and tag highlighting *)

Section Rendering.

Variable U : UCD.
Variable K : Colorama.

(** [colorize]: an attribute that is missing, or empty, leaves the string
    as it is. *)
Definition colorize (string color : text) (bold : bool) : text :=
  match Fore K (upper U color) with
  | None | Some [] => string
  | Some color_escape =>
      if negb bold then color_escape ++ string ++ Fore_RESET K
      else Style_BRIGHT K ++ color_escape ++ string ++ Style_RESET_ALL K
  end.

(** The keys of [entry.journal.config] that the function reads. *)
Record Config := mkConfig {
  highlight : bool;
  tagsymbols : text;
  colors_tags : text
}.

(** An entry: its journal's configuration and its [tag_regex] method. *)
Record Entry := mkEntry {
  journal_config : Config;
  tag_regex : text -> pattern
}.

Section Highlight.

Variable config : Config.
Variable color : text.
Variable is_title : bool.

(** [colorized_text_generator]: the pairs it yields, in order. *)
Definition colorized_text_generator (fragments : list text)
  : list (text * text) :=
  flat_map
    (fun part =>
       match part with
       | c :: _ =>
           if negb (mem c (tagsymbols config))
           then [(colorize part color is_title, part)]
           else [(colorize part (colors_tags config) true, part)]
       | [] => []
       end)
    fragments.

(** [piece[0] in symbols]; [None] stands for the IndexError of [piece[0]]
    on an empty piece. *)
Definition first_in (piece symbols : text) : option bool :=
  match piece with
  | c :: _ => Some (mem c symbols)
  | [] => None
  end.

(** The condition of the loop, with the short-circuit order of [or]. *)
Definition without_space (previous_piece piece : text) : option bool :=
  if all_in (punctuation ++ whitespace) piece then Some true
  else if endswith previous_piece LF then Some true
  else if match previous_piece with
          | c :: _ => mem c (tagsymbols config)
          | [] => false
          end then Some true
  else first_in piece (tagsymbols config).

(** The loop over the generated pairs, from the state
    [(final_text, previous_piece)]. *)
Fixpoint reassemble (pieces : list (text * text))
  (final_text previous_piece : text) : option text :=
  match pieces with
  | [] => Some final_text
  | (colorized_piece, piece) :: rest =>
      match without_space previous_piece piece with
      | None => None
      | Some true => reassemble rest (final_text ++ colorized_piece) piece
      | Some false =>
          reassemble rest (final_text ++ [SPACE] ++ colorized_piece) piece
      end
  end.

(** The highlighting branch, from the fragments of [re.split] on. *)
Definition render_fragments (text_fragments : list text) : option text :=
  option_map lstrip
    (reassemble (colorized_text_generator text_fragments) [] []).

End Highlight.

Definition highlight_tags_with_background_color
  (entry : Entry) (t color : text) (is_title : bool) : option text :=
  let config := journal_config entry in
  if highlight config then
    render_fragments config color is_title
      (re_split (tag_regex entry (tagsymbols config)) t)
  else Some t.

(** ** util.py: slugs *)

Definition not_word_space_hyphen (c : cp) : bool :=
  negb (is_word U c || is_space c || (c =? HYPHEN)%N).

Definition hyphen_or_space (c : cp) : bool := (c =? HYPHEN)%N || is_space c.

Definition slugify (string : text) : text :=
  let normalized_string := NFKD U string in
  let no_punctuation :=
    lower U (strip (re_sub [(not_word_space_hyphen, One)] [] normalized_string))
  in
  re_sub [(hyphen_or_space, Plus)] [HYPHEN] no_punctuation.

End Rendering.

(** ** The tag pattern *)

(** A code point that may continue a tag: neither whitespace nor
    punctuation, hyphen and underscore apart. *)
Definition is_word_like (c : cp) : bool :=
  negb (is_space c)
  && (negb (mem c punctuation) || (c =? HYPHEN)%N || (c =? UNDERSCORE)%N).

(** Modelled from the spec: [Entry.tag_regex] is defined outside
    [util.py].  The pattern matches a tag symbol followed by one or more
    word-like code points, and captures the whole match. *)
Definition spec_tag_regex (symbols : text) : pattern :=
  [ (fun c => mem c symbols, One); (is_word_like, Plus) ].

Definition spec_entry (config : Config) : Entry :=
  mkEntry config spec_tag_regex.

(** ** Sample tables

    Concrete tables to run the functions on.  [ucd_latin1] holds the rows
    of the Unicode Character Database for U+0000 to U+00FF, for the code
    points that their decompositions and case mappings produce, and for the
    Greek sigmas; any other code point gets the row of an unassigned one.  [colorama_ansi] holds the
    attributes of [colorama.Fore] and the two of [colorama.Style] that
    [colorize] reads. *)

Module Sample.

Fixpoint assoc {A : Type} (c : cp) (table : list (cp * A)) : option A :=
  match table with
  | (k, v) :: table' => if (c =? k)%N then Some v else assoc c table'
  | [] => None
  end.

Definition in_ranges (rs : list (cp * cp)) (c : cp) : bool :=
  existsb (fun r => in_range (fst r) (snd r) c) rs.

Definition latin1_decompositions : list (cp * text) :=
  [(0xA0, [0x20]); (0xA8, [0x20; 0x308]); (0xAA, [0x61]);
   (0xAF, [0x20; 0x304]); (0xB2, [0x32]); (0xB3, [0x33]);
   (0xB4, [0x20; 0x301]); (0xB5, [0x3BC]); (0xB8, [0x20; 0x327]);
   (0xB9, [0x31]); (0xBA, [0x6F]); (0xBC, [0x31; 0x2044; 0x34]);
   (0xBD, [0x31; 0x2044; 0x32]); (0xBE, [0x33; 0x2044; 0x34]);
   (0xC0, [0x41; 0x300]); (0xC1, [0x41; 0x301]); (0xC2, [0x41; 0x302]);
   (0xC3, [0x41; 0x303]); (0xC4, [0x41; 0x308]); (0xC5, [0x41; 0x30A]);
   (0xC7, [0x43; 0x327]); (0xC8, [0x45; 0x300]); (0xC9, [0x45; 0x301]);
   (0xCA, [0x45; 0x302]); (0xCB, [0x45; 0x308]); (0xCC, [0x49; 0x300]);
   (0xCD, [0x49; 0x301]); (0xCE, [0x49; 0x302]); (0xCF, [0x49; 0x308]);
   (0xD1, [0x4E; 0x303]); (0xD2, [0x4F; 0x300]); (0xD3, [0x4F; 0x301]);
   (0xD4, [0x4F; 0x302]); (0xD5, [0x4F; 0x303]); (0xD6, [0x4F; 0x308]);
   (0xD9, [0x55; 0x300]); (0xDA, [0x55; 0x301]); (0xDB, [0x55; 0x302]);
   (0xDC, [0x55; 0x308]); (0xDD, [0x59; 0x301]); (0xE0, [0x61; 0x300]);
   (0xE1, [0x61; 0x301]); (0xE2, [0x61; 0x302]); (0xE3, [0x61; 0x303]);
   (0xE4, [0x61; 0x308]); (0xE5, [0x61; 0x30A]); (0xE7, [0x63; 0x327]);
   (0xE8, [0x65; 0x300]); (0xE9, [0x65; 0x301]); (0xEA, [0x65; 0x302]);
   (0xEB, [0x65; 0x308]); (0xEC, [0x69; 0x300]); (0xED, [0x69; 0x301]);
   (0xEE, [0x69; 0x302]); (0xEF, [0x69; 0x308]); (0xF1, [0x6E; 0x303]);
   (0xF2, [0x6F; 0x300]); (0xF3, [0x6F; 0x301]); (0xF4, [0x6F; 0x302]);
   (0xF5, [0x6F; 0x303]); (0xF6, [0x6F; 0x308]); (0xF9, [0x75; 0x300]);
   (0xFA, [0x75; 0x301]); (0xFB, [0x75; 0x302]); (0xFC, [0x75; 0x308]);
   (0xFD, [0x79; 0x301]); (0xFF, [0x79; 0x308]); (0x178, [0x59; 0x308])]%N.

Definition latin1_marks : list (cp * N) :=
  [(0x300, 230); (0x301, 230); (0x302, 230); (0x303, 230); (0x304, 230);
   (0x308, 230); (0x30A, 230); (0x327, 202)]%N.

Definition latin1_alnum : list (cp * cp) :=
  [(0x30, 0x39); (0x41, 0x5A); (0x61, 0x7A); (0xAA, 0xAA); (0xB2, 0xB3);
   (0xB5, 0xB5); (0xB9, 0xBA); (0xBC, 0xBE); (0xC0, 0xD6); (0xD8, 0xF6);
   (0xF8, 0xFF); (0x178, 0x178); (0x39C, 0x39C); (0x3A3, 0x3A3);
   (0x3BC, 0x3BC); (0x3C2, 0x3C3)]%N.

Definition latin1_cased : list (cp * cp) :=
  [(0x41, 0x5A); (0x61, 0x7A); (0xAA, 0xAA); (0xB5, 0xB5); (0xBA, 0xBA);
   (0xC0, 0xD6); (0xD8, 0xF6); (0xF8, 0xFF); (0x178, 0x178); (0x39C, 0x39C);
   (0x3A3, 0x3A3); (0x3BC, 0x3BC); (0x3C2, 0x3C3)]%N.

Definition latin1_case_ignorable : list cp :=
  [0x27; 0x2E; 0x3A; 0x5E; 0x60; 0xA8; 0xAD; 0xAF; 0xB4; 0xB7; 0xB8]%N.

Definition latin1_lower (c : cp) : text :=
  if in_ranges [(0x41, 0x5A); (0xC0, 0xD6); (0xD8, 0xDE)]%N c then [(c + 32)%N]
  else if (c =? 0x178)%N then [0xFF%N]
  else if (c =? 0x39C)%N then [0x3BC%N]
  else if (c =? 0x3A3)%N then [0x3C3%N]
  else [c].

Definition latin1_upper (c : cp) : text :=
  if (c =? 0xDF)%N then [0x53; 0x53]%N
  else if (c =? 0xFF)%N then [0x178%N]
  else if (c =? 0xB5)%N || (c =? 0x3BC)%N then [0x39C%N]
  else if in_range 0x3C2%N 0x3C3%N c then [0x3A3%N]
  else if in_ranges [(0x61, 0x7A); (0xE0, 0xF6); (0xF8, 0xFE)]%N c
       then [(c - 32)%N]
  else [c].

Definition ucd_latin1 : UCD :=
  {| decomposition c :=
       match assoc c latin1_decompositions with Some d => d | None => [c] end;
     combining c :=
       match assoc c latin1_marks with Some k => k | None => 0%N end;
     isalnum := in_ranges latin1_alnum;
     lower_full := latin1_lower;
     upper_full := latin1_upper;
     cased := in_ranges latin1_cased;
     case_ignorable c :=
       mem c latin1_case_ignorable
       || match assoc c latin1_marks with Some _ => true | None => false end |}.

Definition ESC : cp := 27%N.

(** [colorama.ansi.code_to_chars]. *)
Definition code_to_chars (code : string) : text :=
  [ESC] ++ str "[" ++ str code ++ str "m".

Definition ansi_fore : list (string * string) :=
  [("BLACK", "30"); ("RED", "31"); ("GREEN", "32"); ("YELLOW", "33");
   ("BLUE", "34"); ("MAGENTA", "35"); ("CYAN", "36"); ("WHITE", "37");
   ("RESET", "39"); ("LIGHTBLACK_EX", "90"); ("LIGHTRED_EX", "91");
   ("LIGHTGREEN_EX", "92"); ("LIGHTYELLOW_EX", "93");
   ("LIGHTBLUE_EX", "94"); ("LIGHTMAGENTA_EX", "95");
   ("LIGHTCYAN_EX", "96"); ("LIGHTWHITE_EX", "97")]%string.

Definition text_eqb (a b : text) : bool :=
  if list_eq_dec N.eq_dec a b then true else false.

Definition colorama_ansi : Colorama :=
  {| Fore name :=
       option_map (fun kv => code_to_chars (snd kv))
         (find (fun kv => text_eqb name (str (fst kv))) ansi_fore);
     Fore_RESET := code_to_chars "39";
     Style_BRIGHT := code_to_chars "1";
     Style_RESET_ALL := code_to_chars "0" |}.

Definition config_at_hash : Config :=
  mkConfig true (str "@#") (str "NONE").

End Sample.

Import Sample.

(** ** What [slugify] needs of the character database

    Facts about single rows of the Unicode Character Database that the
    idempotence of [slugify] rests on. *)

(** The code points [slugify] keeps: [\w], [\s] and the hyphen. *)
Definition is_slug_char (U : UCD) (c : cp) : bool :=
  is_word U c || is_space c || (c =? HYPHEN)%N.

Record slug_rows (U : UCD) : Prop := {
  (** a decomposition is made of code points that do not decompose *)
  decomposed_rows : forall c d,
    In d (decomposition U c) -> decomposition U d = [d];
  (** alphanumeric code points have combining class 0 *)
  alnum_starters : forall c, isalnum U c = true -> combining U c = 0%N;
  (** the lower case of a kept code point that does not decompose is made
      of kept code points that do not decompose and are in lower case *)
  lower_rows : forall c d,
    decomposition U c = [c] -> is_slug_char U c = true ->
    In d (lower_full U c) ->
    is_slug_char U d = true /\ decomposition U d = [d]
    /\ lower_full U d = [d] /\ d <> CAPITAL_SIGMA;
  (** the two small sigmas are letters in lower case that do not decompose *)
  sigma_rows : forall d,
    d = SMALL_SIGMA \/ d = FINAL_SIGMA ->
    isalnum U d = true /\ decomposition U d = [d] /\ lower_full U d = [d];
  (** hyphen and underscore *)
  hyphen_row :
    decomposition U HYPHEN = [HYPHEN] /\ lower_full U HYPHEN = [HYPHEN]
    /\ combining U HYPHEN = 0%N;
  underscore_row : combining U UNDERSCORE = 0%N
}.

(** The rows of [lower_rows], as a test on one code point. *)
Definition lower_rows_test (U : UCD) (c : cp) : bool :=
  implb
    (text_eqb (decomposition U c) [c] && is_slug_char U c)
    (forallb
       (fun d =>
          is_slug_char U d && text_eqb (decomposition U d) [d]
          && text_eqb (lower_full U d) [d] && negb (d =? CAPITAL_SIGMA)%N)
       (lower_full U c)).

(** The code points a slug is made of: the hyphen and word code points
    that are not whitespace, do not decompose, are starters and are in
    lower case. *)
Definition slug_code_point (U : UCD) (d : cp) : Prop :=
  (d = HYPHEN \/ is_word U d = true)
  /\ is_space d = false
  /\ decomposition U d = [d]
  /\ combining U d = 0%N
  /\ lower_full U d = [d]
  /\ d <> CAPITAL_SIGMA.

(** Length of the longest prefix of [s] in the class [p]. *)
Fixpoint run (p : cp -> bool) (s : text) : nat :=
  match s with
  | c :: s' => if p c then S (run p s') else 0
  | [] => 0
  end.

(** No two neighbours of [s] are both in the class [p]. *)
Fixpoint no_double (p : cp -> bool) (s : text) : bool :=
  match s with
  | a :: s' =>
      match s' with
      | b :: _ => negb (p a && p b)
      | [] => true
      end && no_double p s'
  | [] => true
  end.

(** ** Statements of the specification

    What the specification says, in its own words, next to the functions
    above. *)

(** A sentence end: a terminal, at most one closing quote, closing
    brackets, and one or more whitespace. *)
Definition sentence_end (w : text) : Prop :=
  exists t q bs ws,
    w = [t] ++ q ++ bs ++ ws
    /\ is_sentence_terminal t = true
    /\ (q = [] \/ exists c, q = [c] /\ is_right_quote c = true)
    /\ forallb is_closing_bracket bs = true
    /\ ws <> [] /\ forallb is_space ws = true.

(** Offset [i] of [t] is a sentence boundary: a sentence end starts there. *)
Definition sentence_boundary_at (t : text) (i : nat) : Prop :=
  exists w rest, skipn i t = w ++ rest /\ sentence_end w.

Definition is_digit (c : cp) : bool := in_range 0x30%N 0x39%N c.

Section SpecRendering.

Variable U : UCD.
Variable K : Colorama.
Variable config : Config.
Variable color : text.
Variable is_title : bool.

Definition starts_with_tag (piece : text) : bool :=
  match piece with
  | c :: _ => mem c (tagsymbols config)
  | [] => false
  end.

(** Step 2: tags in the tag colour and bold, the rest in the base colour,
    bold in a title. *)
Definition spec_colorized (piece : text) : text :=
  if starts_with_tag piece then colorize U K piece (colors_tags config) true
  else colorize U K piece color is_title.

(** Step 3: the four cases without a space. *)
Definition spec_no_space (previous piece : text) : bool :=
  all_in (punctuation ++ whitespace) piece
  || endswith previous LF
  || starts_with_tag previous
  || starts_with_tag piece.

(** Each fragment with the fragment before it; the first has none, which
    the empty text stands for. *)
Definition with_previous (fragments : list text) : list (text * text) :=
  combine ([] :: fragments) fragments.

Definition spec_render (fragments : list text) : text :=
  lstrip
    (concat
       (List.map
          (fun pp =>
             (if spec_no_space (fst pp) (snd pp) then [] else [SPACE])
             ++ spec_colorized (snd pp))
          (with_previous fragments))).

End SpecRendering.

(** ** Configuration values

    The configuration is what [yaml.load] returns: strings, booleans,
    [None] and dicts of these.  A dict is the list of its items in
    insertion order; [get] and [set] look at the first item of a key. *)

Module Dict.

#[warnings="-register-all"]
Inductive value :=
| VStr (s : text)
| VBool (b : bool)
| VNone
| VDict (d : list (text * value)).

Definition dict := list (text * value).

(** [d.get(k)]; [d[k]] raises KeyError where it gives [None]. *)
Fixpoint get (k : text) (d : dict) : option value :=
  match d with
  | (k', v) :: d' => if text_eqb k k' then Some v else get k d'
  | [] => None
  end.

(** [k in d] for a dict. *)
Definition has_key (k : text) (d : dict) : bool :=
  match get k d with Some _ => true | None => false end.

(** [d[k] = v]. *)
Fixpoint set (k : text) (v : value) (d : dict) : dict :=
  match d with
  | (k', v') :: d' =>
      if text_eqb k k' then (k, v) :: d' else (k', v') :: set k v d'
  | [] => [(k, v)]
  end.

(** [d.update(other)]. *)
Definition update (d other : dict) : dict :=
  fold_left (fun acc kv => set (fst kv) (snd kv) acc) other d.

Fixpoint starts_with (p s : text) : bool :=
  match p, s with
  | [], _ => true
  | a :: p', b :: s' => (a =? b)%N && starts_with p' s'
  | _ :: _, [] => false
  end.

(** [p in s] for two strings. *)
Fixpoint substring (p s : text) : bool :=
  starts_with p s
  || match s with
     | [] => false
     | _ :: s' => substring p s'
     end.

(** [k in v]: a key of a dict, a substring of a string; [None] stands for
    the TypeError of the other values. *)
Definition py_in (k : text) (v : value) : option bool :=
  match v with
  | VDict d => Some (has_key k d)
  | VStr s => Some (substring k s)
  | VBool _ | VNone => None
  end.

End Dict.

Import Dict.

(** How a call ends: it returns, raises, or leaves through [sys.exit]. *)
Inductive error :=
| KeyError (key : text)
| TypeError
| AttributeError
| ValueError.

Inductive outcome (A : Type) :=
| Return (a : A)
| Raise (e : error)
| Exit (code : nat).

Arguments Return {A} a.
Arguments Raise {A} e.
Arguments Exit {A} code.

(** What a call does to the outside, in order: a line printed to stderr, a
    password prompt, a question asked with [input], a call of
    [set_keychain]. *)
Inductive event :=
| Print (line : text)
| Getpass (prompt : text)
| Input (prompt : text)
| SetKeychain (journal_name : text) (password : option text).

(** The number of password prompts among some events. *)
Definition is_getpass (e : event) : bool :=
  match e with
  | Getpass _ => true
  | _ => false
  end.

Definition prompts (events : list event) : nat :=
  length (filter is_getpass events).

(** ** util.py: configuration *)

(** [is_config_json], on the content of the file. *)
Definition is_config_json (config_file : text) : bool :=
  starts_with (str "{") (strip config_file).

Definition is_old_version (config_file : text) : bool :=
  is_config_json config_file.

(** [scope_config]; the debug log is left out. *)
Definition scope_config (config : dict) (journal_name : text)
  : outcome dict :=
  match get (str "journals") config with
  | None => Raise (KeyError (str "journals"))
  | Some journals =>
      match py_in journal_name journals with
      | None => Raise TypeError
      | Some false => Return config
      | Some true =>
          match journals with
          | VDict js =>
              match get journal_name js with
              | Some (VDict journal_conf) =>
                  Return (update config journal_conf)
              | Some journal_conf =>
                  Return (set (str "journal") journal_conf config)
              | None => Return (set (str "journal") VNone config)
              end
          | _ => Raise AttributeError
          end
      end
  end.

Section Config.

Variable U : UCD.
Variable K : Colorama.

(** [ERROR_COLOR], that is [colorama.Fore.RED]. *)
Variable ERROR_COLOR : text.

(** The colour of one item of [config["colors"]] is valid. *)
Definition valid_color (color : text) : bool :=
  let upper_color := upper U color in
  if text_eqb upper_color (str "NONE") then true
  else
    match Fore K upper_color with
    | None | Some [] => false
    | Some (_ :: _) => true
    end.

Definition invalid_color_message (key color : text) : text :=
  str "[" ++ ERROR_COLOR ++ str "ERROR" ++ Fore_RESET K ++ str ": " ++ key
  ++ str " set to invalid color: " ++ color ++ str "]".

(** The loop of [verify_config] over the items of [config["colors"]], from
    the state [all_valid_colors]; the lines printed come first. *)
Fixpoint verify_colors (colors : list (text * text)) (all_valid_colors : bool)
  : list event * bool :=
  match colors with
  | [] => ([], all_valid_colors)
  | (key, color) :: colors' =>
      if valid_color color then verify_colors colors' all_valid_colors
      else
        let (printed, r) := verify_colors colors' false in
        (Print (invalid_color_message key color) :: printed, r)
  end.

Definition verify_config (colors : list (text * text)) : list event * bool :=
  verify_colors colors true.

End Config.

(** ** util.py: journals *)

Section Journals.

(** [install.CONFIG_FILE_PATH] and [install.DEFAULT_JOURNAL_KEY]. *)
Variable CONFIG_FILE_PATH : text.
Variable DEFAULT_JOURNAL_KEY : text.

(** [repr] of a dict, for a dict formatted with [{}]. *)
Variable repr_dict : dict -> text.

(** [str(v)], which is what [{}] formats. *)
Definition py_str (v : value) : text :=
  match v with
  | VStr s => s
  | VBool true => str "True"
  | VBool false => str "False"
  | VNone => str "None"
  | VDict d => repr_dict d
  end.

(** [{:{}}] on a string and a width: spaces fill up on the right. *)
Definition ljust (s : text) (width : nat) : text :=
  s ++ repeat SPACE (width - length s).

(** [max(len(k) for k in keys)] on one key at least. *)
Definition max_len (keys : list text) : nat :=
  fold_right (fun k m => Nat.max (length k) m) 0 keys.

Definition journal_line (ml : nat) (journal path : text) : text :=
  str " * " ++ ljust journal ml ++ str " -> " ++ path ++ [LF].

(** What a journal's line shows after the arrow, for an entry that has a
    path: [cfg["journal"]] of a dict, the entry itself otherwise. *)
Definition journal_path (cfg : value) : text :=
  match cfg with
  | VDict c =>
      match get (str "journal") c with
      | Some path => py_str path
      | None => []
      end
  | _ => py_str cfg
  end.

(** The loop of [list_journals] over the items, from the state [result]. *)
Fixpoint journal_lines (ml : nat) (items : dict) (result : text)
  : outcome text :=
  match items with
  | [] => Return result
  | (journal, cfg) :: items' =>
      match cfg with
      | VDict c =>
          match get (str "journal") c with
          | Some path =>
              journal_lines ml items'
                (result ++ journal_line ml journal (py_str path))
          | None => Raise (KeyError (str "journal"))
          end
      | _ =>
          journal_lines ml items'
            (result ++ journal_line ml journal (py_str cfg))
      end
  end.

Definition list_journals (config : dict) : outcome text :=
  let result := str "Journals defined in " ++ CONFIG_FILE_PATH ++ [LF] in
  match get (str "journals") config with
  | None => Raise (KeyError (str "journals"))
  | Some (VDict []) => Raise ValueError
  | Some (VDict js) =>
      let ml := Nat.min (max_len (List.map fst js)) 20 in
      journal_lines ml js result
  | Some (VStr []) => Raise ValueError
  | Some (VStr (_ :: _)) => Raise AttributeError
  | Some (VBool _) | Some VNone => Raise TypeError
  end.

(** The attributes of [args] that the function reads and writes. *)
Record Args := mkArgs {
  args_journal_name : text;
  args_text : list text
}.

(** The [elif] of [get_journal_name] and what follows it. *)
Definition default_journal (args : Args) (config : dict)
  : list event * outcome Args :=
  match get (str "journals") config with
  | None => ([], Raise (KeyError (str "journals")))
  | Some journals =>
      match py_in DEFAULT_JOURNAL_KEY journals with
      | None => ([], Raise TypeError)
      | Some true =>
          ([], Return (mkArgs DEFAULT_JOURNAL_KEY (args_text args)))
      | Some false =>
          let complaint := Print (str "No default journal configured.") in
          match list_journals config with
          | Return listing => ([complaint; Print listing], Exit 1)
          | Raise e => ([complaint], Raise e)
          | Exit code => ([complaint], Exit code)
          end
      end
  end.

(** [get_journal_name]; the debug log is left out. *)
Definition get_journal_name (args : Args) (config : dict)
  : list event * outcome Args :=
  match args_text args with
  | first :: rest =>
      match get (str "journals") config with
      | None => ([], Raise (KeyError (str "journals")))
      | Some journals =>
          match py_in first journals with
          | None => ([], Raise TypeError)
          | Some true => ([], Return (mkArgs first rest))
          | Some false => default_journal args config
          end
      end
  | [] => default_journal args config
  end.

End Journals.

(** ** util.py: passwords *)

Section Passwords.

Variable U : UCD.

(** [decrypt_func], the value [get_keychain] returns for a journal, and
    what the user types at the n-th password prompt. *)
Variable decrypt_func : text -> option text.
Variable get_keychain : text -> option text.
Variable typed : nat -> text.

Definition password_prompt : text := str "Password: ".

(** [yesno], on the line that [input] returned. *)
Definition yesno_answer (response : text) (default : bool) : bool :=
  let answer := strip (lower U response) in
  if text_eqb answer (str "y") then true
  else if text_eqb answer (str "n") then false
  else default.

Definition yesno_prompt (prompt : text) (default : bool) : text :=
  strip prompt ++ [SPACE] ++ str (if default then "[Y/n]" else "[y/N]")
  ++ [SPACE].

(** The [while] loop of [decrypt_content]: [retries] is how often its
    condition [attempt < max_attempts] can still hold, [asked] the number of
    password prompts so far. *)
Fixpoint retry (retries asked : nat) : list event * option text :=
  match retries with
  | 0 => ([], None)
  | S retries' =>
      let asking :=
        [Print (str "Wrong password, try again."); Getpass password_prompt] in
      match decrypt_func (typed asked) with
      | Some result => (asking, Some result)
      | None =>
          let (events, result) := retry retries' (S asked) in
          (asking ++ events, result)
      end
  end.

(** [decrypt_content]: [keychain] is a journal name or [None],
    [max_attempts] a number. *)
Definition decrypt_content (keychain : option text) (max_attempts : nat)
  : list event * outcome text :=
  let pwd_from_keychain :=
    match keychain with
    | Some (c :: name) =>
        match get_keychain (c :: name) with
        | Some (d :: pwd) => Some (d :: pwd)
        | _ => None
        end
    | _ => None
    end in
  let '(first, password, asked) :=
    match pwd_from_keychain with
    | Some pwd => ([], pwd, 0)
    | None => ([Getpass password_prompt], typed 0, 1)
    end in
  match decrypt_func password with
  | Some result => (first, Return result)
  | None =>
      let forget :=
        match pwd_from_keychain, keychain with
        | Some _, Some name => [SetKeychain name None]
        | _, _ => []
        end in
      let (events, result) := retry (max_attempts - 1) asked in
      match result with
      | Some result => (first ++ forget ++ events, Return result)
      | None =>
          (first ++ forget ++ events
           ++ [Print (str "Extremely wrong password.")], Exit 1)
      end
  end.

(** The [while True] loop of [create_password]; [rounds] bounds the number
    of its iterations, and [None] is a loop that has not ended within
    them. *)
Fixpoint new_password (prompt : text) (rounds asked : nat)
  : option (list event * text * nat) :=
  match rounds with
  | 0 => None
  | S rounds' =>
      let pw := typed asked in
      match pw with
      | [] =>
          match new_password prompt rounds' (S asked) with
          | Some (events, r, n) =>
              Some (Getpass prompt
                    :: Print (str "Password can't be an empty string!")
                    :: events, r, n)
          | None => None
          end
      | _ :: _ =>
          let again := Getpass (str "Enter password again: ") in
          if text_eqb pw (typed (S asked))
          then Some ([Getpass prompt; again], pw, S (S asked))
          else
            match new_password prompt rounds' (S (S asked)) with
            | Some (events, r, n) =>
                Some (Getpass prompt :: again
                      :: Print (str "Passwords did not match, please try again")
                      :: events, r, n)
            | None => None
            end
      end
  end.

(** Where the next iteration of that loop starts reading, after an
    iteration that started at [asked] and did not end the loop; and where
    the k-th iteration after the one at [asked] starts. *)
Definition next_round (asked : nat) : nat :=
  match typed asked with
  | [] => S asked
  | _ :: _ => S (S asked)
  end.

Fixpoint round_start (k asked : nat) : nat :=
  match k with
  | 0 => asked
  | S k' => round_start k' (next_round asked)
  end.

(** [create_password]; [response] is the line typed at the question. *)
Definition create_password (journal_name prompt response : text)
  (rounds : nat) : option (list event * text) :=
  match new_password prompt rounds 0 with
  | Some (events, pw, _) =>
      let question :=
        Input (yesno_prompt
                 (str "Do you want to store the password in your keychain?")
                 true) in
      if yesno_answer response true
      then Some (events ++ [question; SetKeychain journal_name (Some pw)], pw)
      else Some (events ++ [question], pw)
  | None => None
  end.

End Passwords.

(** A journal that the password "secret" opens, a keychain that holds an
    old password for every journal, and a user who types "guess", then
    "secret", then nothing. *)
Definition sample_decrypt (password : text) : option text :=
  if text_eqb password (str "secret") then Some (str "my journal") else None.

Definition sample_keychain (journal_name : text) : option text :=
  Some (str "old").

Definition sample_typed (n : nat) : text :=
  match n with
  | 0 => str "guess"
  | 1 => str "secret"
  | 2 => str "secret"
  | _ => []
  end.

(** A user who types nothing, then "guess" and "guest", then "secret"
    twice. *)
Definition sample_retyped (n : nat) : text :=
  match n with
  | 1 => str "guess"
  | 2 => str "guest"
  | 3 => str "secret"
  | 4 => str "secret"
  | _ => []
  end.

(** A code point that is not whitespace. *)
Definition not_space (c : cp) : bool := negb (is_space c).

(** * Properties *)

(** ** Strings *)

Example punctuation_size : length punctuation = 32.
Proof. reflexivity. Qed.

Lemma rstrip_snoc_space (s : text) (c : cp) :
  is_space c = true -> rstrip (s ++ [c]) = rstrip s.
Proof.
  intros Hc. unfold rstrip. rewrite rev_app_distr. simpl. now rewrite Hc.
Qed.

Lemma strip_snoc_space (s : text) (c : cp) :
  is_space c = true -> strip (s ++ [c]) = strip s.
Proof.
  intros Hc. induction s as [|x s IH].
  - unfold strip. simpl. now rewrite Hc.
  - unfold strip in *. simpl. destruct (is_space x); [exact IH|].
    now rewrite app_comm_cons, rstrip_snoc_space.
Qed.

Lemma lstrip_all_space (s : text) :
  forallb is_space s = true -> lstrip s = [].
Proof.
  induction s as [|c s IH]; simpl; [reflexivity|].
  intros H. apply andb_prop in H as [Hc Hs]. rewrite Hc. auto.
Qed.

Lemma lstrip_head (c : cp) (s : text) :
  is_space c = false -> lstrip (c :: s) = c :: s.
Proof. intros H. simpl. now rewrite H. Qed.

Lemma rstrip_no_space (s : text) :
  forallb (fun c => negb (is_space c)) s = true -> rstrip s = s.
Proof.
  intros H. unfold rstrip.
  assert (Hr : forallb (fun c => negb (is_space c)) (rev s) = true).
  { rewrite forallb_forall in *. intros c Hc. apply H. now apply in_rev. }
  destruct (rev s) as [|c r] eqn:E.
  - simpl. rewrite <- (rev_involutive s), E. reflexivity.
  - simpl in Hr. apply andb_prop in Hr as [Hc _].
    apply negb_true_iff in Hc. rewrite lstrip_head by exact Hc.
    rewrite <- E. apply rev_involutive.
Qed.

Lemma strip_no_space (s : text) :
  forallb (fun c => negb (is_space c)) s = true -> strip s = s.
Proof.
  intros H. unfold strip.
  destruct s as [|c s]; [reflexivity|].
  pose proof H as H'. simpl in H'. apply andb_prop in H' as [Hc _].
  apply negb_true_iff in Hc. rewrite lstrip_head by exact Hc.
  now apply rstrip_no_space.
Qed.

Lemma lstrip_incl (s : text) (c : cp) : In c (lstrip s) -> In c s.
Proof.
  induction s as [|x s IH]; simpl; [tauto|].
  destruct (is_space x); simpl; tauto.
Qed.

Lemma strip_incl (s : text) (c : cp) : In c (strip s) -> In c s.
Proof.
  unfold strip, rstrip. intros H. apply in_rev, lstrip_incl in H.
  apply in_rev in H. now apply lstrip_incl.
Qed.

(** ** The matcher against the language of a pattern *)

Lemma star_inv p k : forall s n,
  star p k s = Some n ->
  exists u rest m,
    s = u ++ rest /\ forallb p u = true /\ k rest = Some m /\ n = length u + m.
Proof.
  induction s as [|c s IH]; simpl; intros n H.
  - exists [], [], n. auto.
  - destruct (p c) eqn:Hc.
    + destruct (star p k s) as [n'|] eqn:Hs.
      * injection H as <-. destruct (IH _ eq_refl) as (u & rest & m & -> & Hu & Hk & ->).
        exists (c :: u), rest, m. simpl. rewrite Hc, Hu. auto.
      * exists [], (c :: s), n. auto.
    + exists [], (c :: s), n. auto.
Qed.

Lemma star_fallback p k : forall s,
  (exists m, k s = Some m) -> exists n, star p k s = Some n.
Proof.
  intros [|c s] [m Hm]; simpl; eauto.
  destruct (p c); eauto. destruct (star p k s); eauto.
Qed.

Lemma star_complete p k : forall u s,
  forallb p u = true -> (exists m, k s = Some m) ->
  exists n, star p k (u ++ s) = Some n.
Proof.
  induction u as [|c u IH]; simpl; intros s Hu Hk.
  - now apply star_fallback.
  - apply andb_prop in Hu as [Hc Hu]. rewrite Hc.
    destruct (IH s Hu Hk) as [n ->]. eauto.
Qed.

Lemma match_here_sound : forall r s n,
  match_here r s = Some n ->
  exists w rest, s = w ++ rest /\ length w = n /\ matches r w.
Proof.
  induction r as [|[p q] r IH]; simpl; intros s n H.
  - injection H as <-. exists [], s. repeat split. constructor.
  - destruct q.
    + destruct s as [|c s]; [discriminate|].
      destruct (p c) eqn:Hc; [|discriminate].
      destruct (match_here r s) as [m|] eqn:Hm; [|discriminate].
      injection H as <-. destruct (IH _ _ Hm) as (w & rest & -> & <- & Hw).
      exists (c :: w), rest. repeat split. now constructor.
    + assert (Hskip : forall s0, match_here r s0 = Some n ->
                exists w rest, s0 = w ++ rest /\ length w = n
                               /\ matches ((p, Opt) :: r) w).
      { intros s0 H0. destruct (IH _ _ H0) as (w & rest & -> & <- & Hw).
        exists w, rest. repeat split. now constructor. }
      destruct s as [|c s]; [now apply Hskip|].
      destruct (p c) eqn:Hc; [|now apply Hskip].
      destruct (match_here r s) as [m|] eqn:Hm; [|now apply Hskip].
      injection H as <-. destruct (IH _ _ Hm) as (w & rest & -> & <- & Hw).
      exists (c :: w), rest. repeat split. now constructor.
    + destruct (star_inv _ _ _ _ H) as (u & rest & m & -> & Hu & Hk & ->).
      destruct (IH _ _ Hk) as (w & rest' & -> & <- & Hw).
      exists (u ++ w), rest'. rewrite app_assoc, length_app.
      repeat split. now constructor.
    + destruct s as [|c s]; [discriminate|].
      destruct (p c) eqn:Hc; [|discriminate].
      destruct (star p (match_here r) s) as [k|] eqn:Hs; [|discriminate].
      injection H as <-.
      destruct (star_inv _ _ _ _ Hs) as (u & rest & m & -> & Hu & Hk & ->).
      destruct (IH _ _ Hk) as (w & rest' & -> & <- & Hw).
      exists (c :: u ++ w), rest'. simpl. rewrite app_assoc, length_app.
      repeat split. now constructor.
Qed.

Lemma match_here_complete : forall r w,
  matches r w -> forall rest, exists n, match_here r (w ++ rest) = Some n.
Proof.
  induction 1 as [|p r c w Hc _ IH|p r w _ IH|p r c w Hc _ IH
                  |p r u w Hu _ IH|p r c u w Hc Hu _ IH]; intros rest; simpl.
  - eauto.
  - rewrite Hc. destruct (IH rest) as [n ->]. simpl. eauto.
  - destruct (IH rest) as [n Hn]. destruct (w ++ rest) as [|c s]; eauto.
    destruct (p c); eauto. destruct (match_here r s); eauto.
  - rewrite Hc. destruct (IH rest) as [n ->]. eauto.
  - rewrite <- app_assoc. apply star_complete; auto.
  - rewrite Hc, <- app_assoc.
    destruct (star_complete p (match_here r) u (w ++ rest) Hu (IH rest))
      as [n ->].
    simpl. eauto.
Qed.

(** A prefix of [s] is in the language of [r] exactly when the matcher
    succeeds on [s]. *)
Lemma match_here_iff (r : pattern) (s : text) :
  (exists n, match_here r s = Some n)
  <-> exists w rest, s = w ++ rest /\ matches r w.
Proof.
  split.
  - intros [n H]. destruct (match_here_sound _ _ _ H) as (w & rest & ? & _ & ?).
    eauto.
  - intros (w & rest & -> & H). now apply match_here_complete.
Qed.

Lemma search_from_none (r : pattern) : forall s i,
  search_from r s i = None <->
  forall k, k <= length s -> match_here r (skipn k s) = None.
Proof.
  induction s as [|c s IH]; intros i; simpl.
  - destruct (match_here r []) eqn:E; split; intros H; try discriminate; auto.
    + specialize (H 0 (le_n _)). simpl in H. congruence.
    + intros k _. now destruct k.
  - destruct (match_here r (c :: s)) eqn:E; split; intros H; try discriminate.
    + specialize (H 0 (Nat.le_0_l _)). simpl in H. congruence.
    + intros [|k] Hk; simpl; [exact E|].
      apply (proj1 (IH (S i)) H). lia.
    + apply IH. intros k Hk. apply (H (S k)). lia.
Qed.

Lemma search_from_some (r : pattern) : forall s i m,
  search_from r s i = Some m ->
  exists k n,
    k <= length s /\ m = mkMatch (i + k) (i + k + n)
    /\ match_here r (skipn k s) = Some n
    /\ forall j, j < k -> match_here r (skipn j s) = None.
Proof.
  induction s as [|c s IH]; intros i m; simpl.
  - destruct (match_here r []) as [n|] eqn:E; [|discriminate].
    intros [= <-]. exists 0, n. rewrite Nat.add_0_r. repeat split; auto. lia.
  - destruct (match_here r (c :: s)) as [n|] eqn:E.
    + intros [= <-]. exists 0, n. rewrite Nat.add_0_r.
      repeat split; auto; lia.
    + intros H. destruct (IH _ _ H) as (k & n & Hk & -> & Hn & Hlt).
      exists (S k), n. repeat split; simpl; auto; try lia.
      * f_equal; lia.
      * intros [|j] Hj; simpl; [exact E|]. apply Hlt. lia.
Qed.

(** ** Sentence ends *)

Lemma mem_In (c : cp) (l : text) : mem c l = true <-> In c l.
Proof.
  unfold mem. rewrite existsb_exists. split.
  - intros (x & Hx & E). apply N.eqb_eq in E. now subst.
  - intros H. exists c. split; [exact H|apply N.eqb_refl].
Qed.

Lemma matches_sentence_end (w : text) :
  matches SENTENCE_SPLITTER w <-> sentence_end w.
Proof.
  unfold SENTENCE_SPLITTER, sentence_end. split.
  - intros H. inversion H as [|? ? t w1 Ht H1| | | |]; subst; clear H.
    assert (Htail : forall w2, matches [(is_closing_bracket, Star); (is_space, Plus)] w2 ->
              exists bs ws, w2 = bs ++ ws /\ forallb is_closing_bracket bs = true
                            /\ ws <> [] /\ forallb is_space ws = true).
    { intros w2 H2. inversion H2 as [| | | |? ? bs w3 Hbs H3|]; subst; clear H2.
      inversion H3 as [| | | | |? ? c ws w4 Hc Hws H4]; subst; clear H3.
      inversion H4; subst. exists bs, (c :: ws ++ []).
      repeat split; auto; [discriminate|].
      simpl. rewrite Hc, app_nil_r. exact Hws. }
    inversion H1 as [| |? ? ? H2|? ? c w2 Hc H2| |]; subst; clear H1.
    + destruct (Htail _ H2) as (bs & ws & -> & Hbs & Hne & Hws).
      exists t, [], bs, ws. repeat split; auto.
    + destruct (Htail _ H2) as (bs & ws & -> & Hbs & Hne & Hws).
      exists t, [c], bs, ws. repeat split; eauto.
  - intros (t & q & bs & ws & -> & Ht & Hq & Hbs & Hne & Hws).
    destruct ws as [|c ws]; [congruence|]. simpl in Hws.
    apply andb_prop in Hws as [Hc Hws].
    assert (Htail : matches [(is_closing_bracket, Star); (is_space, Plus)]
                      (bs ++ c :: ws)).
    { constructor; [exact Hbs|].
      rewrite <- (app_nil_r ws). constructor; auto. constructor. }
    simpl. constructor; [exact Ht|].
    destruct Hq as [-> | (d & -> & Hd)]; simpl.
    + now apply M_opt_skip.
    + now apply M_opt_take.
Qed.

Lemma terminal_not_space (c : cp) :
  is_sentence_terminal c = true -> is_space c = false.
Proof.
  unfold is_sentence_terminal. rewrite mem_In. simpl.
  intros H. repeat (destruct H as [<- | H]; [reflexivity|]). destruct H.
Qed.

Lemma digit_classes (d : cp) :
  is_digit d = true ->
  is_right_quote d = false /\ is_closing_bracket d = false
  /\ is_space d = false.
Proof.
  unfold is_digit, in_range. intros H. apply andb_prop in H as [H1 H2].
  apply N.leb_le in H1, H2.
  assert (Hmem : forall l, Forall (fun x => x <> d) l -> mem d l = false).
  { intros l Hl. destruct (mem d l) eqn:E; [|reflexivity].
    apply mem_In in E. rewrite Forall_forall in Hl. now apply Hl in E. }
  repeat split.
  - apply Hmem. repeat constructor; lia.
  - apply Hmem. repeat constructor; lia.
  - unfold is_space, in_range.
    repeat match goal with
           | |- context [(?a <=? ?b)%N] => destruct (N.leb_spec a b)
           | |- context [(?a =? ?b)%N] => destruct (N.eqb_spec a b)
           end; simpl; try reflexivity; lia.
Qed.

Lemma terminal_then_digit (c d : cp) (rest : text) :
  is_digit d = true -> match_here SENTENCE_SPLITTER (c :: d :: rest) = None.
Proof.
  intros Hd. destruct (digit_classes d Hd) as (Hq & Hb & Hs). simpl.
  destruct (is_sentence_terminal c); [|reflexivity].
  now rewrite Hq, Hb, Hs.
Qed.

(** ** The title *)

Lemma match_newline (c : cp) (s : text) :
  match_here SENTENCE_SPLITTER_ONLY_NEWLINE (c :: s)
  = if (LF =? c)%N then Some 1 else None.
Proof.
  unfold SENTENCE_SPLITTER_ONLY_NEWLINE. cbn [match_here option_map].
  now destruct (LF =? c)%N.
Qed.

Lemma search_newline_first (a b : text) (i : nat) :
  ~ In LF a ->
  search_from SENTENCE_SPLITTER_ONLY_NEWLINE (a ++ LF :: b) i
  = Some (mkMatch (i + length a) (i + length a + 1)).
Proof.
  revert i. induction a as [|c a IH]; intros i Ha;
    cbn [app search_from length]; rewrite match_newline.
  - rewrite N.eqb_refl, Nat.add_0_r. reflexivity.
  - destruct (N.eqb_spec LF c) as [E|E]; [exfalso; apply Ha; now left|].
    rewrite IH by (intros H; apply Ha; now right).
    now replace (S i + length a) with (i + S (length a)) by lia.
Qed.

Lemma search_newline_none (s : text) (i : nat) :
  ~ In LF s -> search_from SENTENCE_SPLITTER_ONLY_NEWLINE s i = None.
Proof.
  revert i. induction s as [|c s IH]; intros i Hs; [reflexivity|].
  cbn [search_from]. rewrite match_newline.
  destruct (N.eqb_spec LF c) as [E|E]; [exfalso; apply Hs; now left|].
  apply IH. intros H; apply Hs; now right.
Qed.

(** What the code does with a newline: the offset found in the
    left-stripped text cuts the text itself. *)
Lemma split_title_newline_offset (t a b : text) :
  lstrip t = a ++ LF :: b -> ~ In LF a ->
  split_title t
  = (strip (slice_to (S (length a)) t), strip (slice_from (S (length a)) t)).
Proof.
  intros E Ha. unfold split_title, search.
  rewrite E, search_newline_first by exact Ha. simpl m_end.
  now rewrite Nat.add_1_r.
Qed.

(** Without whitespace in front, the title is the first line. *)
Lemma split_title_first_line (a b : text) :
  lstrip (a ++ LF :: b) = a ++ LF :: b -> ~ In LF a ->
  split_title (a ++ LF :: b) = (strip a, strip b).
Proof.
  intros E Ha. rewrite (split_title_newline_offset _ _ _ E Ha).
  unfold slice_to, slice_from.
  replace (a ++ LF :: b) with ((a ++ [LF]) ++ b) by now rewrite <- app_assoc.
  replace (S (length a)) with (length (a ++ [LF]))
    by (rewrite length_app; simpl; lia).
  rewrite firstn_app, skipn_app, firstn_all, skipn_all, Nat.sub_diag.
  simpl. rewrite app_nil_r, strip_snoc_space by reflexivity. reflexivity.
Qed.

Lemma search_all_space (t : text) :
  forallb is_space t = true -> search SENTENCE_SPLITTER t = None.
Proof.
  intros Ht. apply search_from_none. intros k _.
  assert (Hk : forallb is_space (skipn k t) = true).
  { rewrite forallb_forall in *. intros c Hc. apply Ht.
    rewrite <- (firstn_skipn k t). apply in_or_app. now right. }
  destruct (skipn k t) as [|c s]; [reflexivity|].
  simpl in Hk. apply andb_prop in Hk as [Hc _]. simpl.
  destruct (is_sentence_terminal c) eqn:E; [|reflexivity].
  apply terminal_not_space in E. congruence.
Qed.

(** C1, as the code has it: when neither the newline (in the left-stripped
    text) nor the sentence pattern is found, [split_title] returns the text
    itself, not trimmed, with an empty body; a text of whitespace only is
    such a text and comes back as it is. *)
Theorem split_title_no_boundary :
  (forall t,
      search SENTENCE_SPLITTER_ONLY_NEWLINE (lstrip t) = None ->
      search SENTENCE_SPLITTER t = None ->
      split_title t = (t, []))
  /\ (forall t, forallb is_space t = true -> split_title t = (t, [])).
Proof.
  assert (H : forall t,
             search SENTENCE_SPLITTER_ONLY_NEWLINE (lstrip t) = None ->
             search SENTENCE_SPLITTER t = None ->
             split_title t = (t, [])).
  { intros t Hn Hs. unfold split_title. now rewrite Hn, Hs. }
  split; [exact H|].
  intros t Ht. apply H.
  - now rewrite lstrip_all_space.
  - now apply search_all_space.
Qed.

Lemma split_title_no_boundary_witness :
  split_title (str " one line") = (str " one line", [])
  /\ split_title (str "   ") = (str "   ", []).
Proof.
  split.
  - apply (proj1 split_title_no_boundary (str " one line")); reflexivity.
  - apply (proj2 split_title_no_boundary (str "   ")); reflexivity.
Defined.

(** C1 as stated fails: the title keeps its surrounding whitespace. *)
Lemma split_title_no_boundary_untrimmed :
  search SENTENCE_SPLITTER_ONLY_NEWLINE (lstrip (str " a")) = None
  /\ search SENTENCE_SPLITTER (str " a") = None
  /\ split_title (str " a") <> (strip (str " a"), [])
  /\ forallb is_space (str "  ") = true
  /\ split_title (str "  ") <> ([], []).
Proof. repeat split; try reflexivity; vm_compute; discriminate. Qed.

(** C2 at a text that starts with two spaces: the newline is found at
    offset 5 of the left-stripped text, and the cut at offset 6 of the text
    itself falls inside the first line. *)
Theorem split_title_newline_shifted :
  let t := str "  Hello" ++ [LF] ++ str "World" in
  lstrip t = str "Hello" ++ [LF] ++ str "World"
  /\ split_title t = (str "Hell", str "o" ++ [LF] ++ str "World")
  /\ split_title t <> (str "Hello", str "World").
Proof. repeat split; try reflexivity; vm_compute; discriminate. Qed.

Example split_title_one_line :
  split_title (str "No terminal punctuation here")
  = (str "No terminal punctuation here", []).
Proof. reflexivity. Qed.

Example split_title_lines :
  split_title (str "Line one" ++ [LF] ++ str "Line two")
  = (str "Line one", str "Line two").
Proof. reflexivity. Qed.

(** With a newline in the text and a sentence end before it, the newline
    decides. *)
Example split_title_newline_first :
  split_title (str "One. Two" ++ [LF] ++ str "Three")
  = (str "One. Two", str "Three").
Proof. reflexivity. Qed.

(** C4: an offset is matched by [SENTENCE_SPLITTER] exactly when a sentence
    end starts there: a terminal, at most one closing quote, closing
    brackets, then at least one whitespace.  A terminal followed at once by
    a digit is no boundary, so "3.14" is not split, and "Hello world. Foo
    bar." is split after the first sentence. *)
Theorem sentence_boundary_pattern :
  (forall t i,
      (exists n, match_here SENTENCE_SPLITTER (skipn i t) = Some n)
      <-> sentence_boundary_at t i)
  /\ (forall c d rest,
         is_digit d = true ->
         match_here SENTENCE_SPLITTER (c :: d :: rest) = None)
  /\ search SENTENCE_SPLITTER (str "3.14") = None
  /\ split_title (str "3.14") = (str "3.14", [])
  /\ split_title (str "Hello world. Foo bar.")
     = (str "Hello world.", str "Foo bar.").
Proof.
  repeat split; try reflexivity.
  - intros H. apply match_here_iff in H as (w & rest & E & Hw).
    exists w, rest. split; [exact E|]. now apply matches_sentence_end.
  - intros (w & rest & E & Hw). apply match_here_iff.
    exists w, rest. split; [exact E|]. now apply matches_sentence_end.
  - intros c d rest. apply terminal_then_digit.
Qed.

Lemma sentence_boundary_pattern_witness :
  sentence_boundary_at (str "Hi. Yo") 2
  /\ match_here SENTENCE_SPLITTER (skipn 1 (str "3.14")) = None.
Proof.
  destruct sentence_boundary_pattern as (Hiff & Hdigit & _).
  split.
  - apply (proj1 (Hiff (str "Hi. Yo") 2)). exists 2. reflexivity.
  - apply (Hdigit 0x2E%N 0x31%N (str "4")). reflexivity.
Defined.

(** ** Colours *)

Section ColorFacts.

Variable U : UCD.
Variable K : Colorama.

(** C9: a colour name that does not resolve, and so the name NONE, which
    [colorama.Fore] does not have, leaves the string as it is; a name that
    resolves to an escape sequence puts it in front of the string, after
    the bright marker when bold, and the matching reset behind it. *)
Theorem colorize_cases (string color : text) (bold : bool) :
  (Fore K (upper U color) = None -> colorize U K string color bold = string)
  /\ (upper U color = str "NONE" -> Fore K (str "NONE") = None ->
      colorize U K string color bold = string)
  /\ (forall color_escape,
         Fore K (upper U color) = Some color_escape -> color_escape <> [] ->
         colorize U K string color bold
         = if bold
           then Style_BRIGHT K ++ color_escape ++ string ++ Style_RESET_ALL K
           else color_escape ++ string ++ Fore_RESET K).
Proof.
  unfold colorize. repeat split.
  - now intros ->.
  - now intros -> ->.
  - intros e -> He. destruct e; [congruence|]. now destruct bold.
Qed.

(** An attribute that is the empty string counts as no colour. *)
Lemma colorize_empty_escape (string color : text) (bold : bool) :
  Fore K (upper U color) = Some [] -> colorize U K string color bold = string.
Proof. unfold colorize. now intros ->. Qed.

End ColorFacts.

Lemma colorize_cases_witness :
  colorize ucd_latin1 colorama_ansi (str "@tag") (str "purple") true
  = str "@tag"
  /\ colorize ucd_latin1 colorama_ansi (str "@tag") (str "none") true
     = str "@tag"
  /\ colorize ucd_latin1 colorama_ansi (str "@tag") (str "red") true
     = code_to_chars "1" ++ code_to_chars "31" ++ str "@tag"
       ++ code_to_chars "0".
Proof.
  split; [|split].
  - apply (proj1 (colorize_cases ucd_latin1 colorama_ansi
                    (str "@tag") (str "purple") true)).
    reflexivity.
  - apply (proj1 (proj2 (colorize_cases ucd_latin1 colorama_ansi
                           (str "@tag") (str "none") true)));
      reflexivity.
  - apply (proj2 (proj2 (colorize_cases ucd_latin1 colorama_ansi
                           (str "@tag") (str "red") true))
             (code_to_chars "31")); [reflexivity|discriminate].
Defined.

(** ** Highlighting *)

Section HighlightFacts.

Variable U : UCD.
Variable K : Colorama.
Variable config : Config.
Variable color : text.
Variable is_title : bool.

Let generator := colorized_text_generator U K config color is_title.
Let colorized := spec_colorized U K config color is_title.

Lemma generator_pieces (fragments : list text) :
  generator fragments
  = List.map (fun part => (colorized part, part))
      (filter (fun part => negb (Nat.eqb (length part) 0)) fragments).
Proof.
  unfold generator, colorized, colorized_text_generator, spec_colorized.
  induction fragments as [|[|c part] fragments IH]; simpl; [reflexivity|exact IH|].
  rewrite IH. now destruct (mem c (tagsymbols config)).
Qed.

Lemma filter_nonempty (fragments : list text) :
  Forall (fun part => part <> []) fragments ->
  filter (fun part => negb (Nat.eqb (length part) 0)) fragments = fragments.
Proof.
  induction 1 as [|[|c part] fragments Hp _ IH]; simpl;
    [reflexivity|congruence|now rewrite IH].
Qed.

Lemma without_space_defined (previous_piece piece : text) :
  without_space config previous_piece piece <> None.
Proof.
  unfold without_space. destruct piece as [|c piece]; [discriminate|].
  repeat match goal with |- context [if ?b then _ else _] => destruct b end;
    discriminate.
Qed.

Lemma without_space_spec (previous_piece piece : text) :
  piece <> [] ->
  without_space config previous_piece piece
  = Some (spec_no_space config previous_piece piece).
Proof.
  unfold without_space, spec_no_space, starts_with_tag.
  destruct piece as [|c piece]; [congruence|]. intros _.
  destruct (all_in _ _); [reflexivity|].
  destruct (endswith _ _); [reflexivity|].
  destruct previous_piece as [|d previous_piece]; [reflexivity|].
  now destruct (mem d _).
Qed.

Lemma reassemble_total (pieces : list (text * text)) :
  forall final_text previous_piece,
    exists r, reassemble config pieces final_text previous_piece = Some r.
Proof.
  induction pieces as [|[colorized_piece piece] pieces IH]; intros acc prev;
    simpl; [eauto|].
  pose proof (without_space_defined prev piece) as Hd.
  destruct (without_space config prev piece) as [[|]|]; [apply IH..|congruence].
Qed.

Lemma reassemble_spec (fragments : list text) :
  Forall (fun part => part <> []) fragments ->
  forall final_text previous_piece,
    reassemble config (List.map (fun part => (colorized part, part)) fragments)
      final_text previous_piece
    = Some
        (final_text
         ++ concat
              (List.map
                 (fun pp =>
                    (if spec_no_space config (fst pp) (snd pp)
                     then [] else [SPACE])
                    ++ colorized (snd pp))
                 (combine (previous_piece :: fragments) fragments))).
Proof.
  induction 1 as [|part fragments Hp _ IH]; intros acc prev; simpl.
  - now rewrite app_nil_r.
  - rewrite (without_space_spec prev part Hp).
    destruct (spec_no_space config prev part); rewrite IH; simpl;
      now rewrite <- !app_assoc.
Qed.

(** C3: for non-empty fragments the loop yields the colorized fragments,
    each after one space unless it is all punctuation and whitespace, or
    the fragment before it ended with a newline or started with a tag
    symbol, or it starts with a tag symbol itself; the whole is then
    stripped on the left. *)
Theorem render_fragments_spacing (fragments : list text) :
  Forall (fun part => part <> []) fragments ->
  render_fragments U K config color is_title fragments
  = Some (spec_render U K config color is_title fragments).
Proof.
  intros H. unfold render_fragments, spec_render, with_previous.
  fold generator. rewrite generator_pieces, (filter_nonempty _ H).
  now rewrite (reassemble_spec _ H).
Qed.

(** C10: the generator yields no empty piece, so the first character of
    every piece it yields is defined; the loop returns a text from any
    list of pieces and any state, and the function returns a text for any
    entry and text. *)
Theorem highlight_total :
  (forall fragments,
      Forall (fun p => snd p <> []
                       /\ exists b, first_in (snd p) (tagsymbols config) = Some b)
        (generator fragments))
  /\ (forall pieces final_text previous_piece,
         exists r, reassemble config pieces final_text previous_piece = Some r)
  /\ (forall fragments,
         exists r,
           render_fragments U K config color is_title fragments = Some r)
  /\ (forall entry t,
         exists r,
           highlight_tags_with_background_color U K entry t color is_title
           = Some r).
Proof.
  assert (Hr : forall cfg fragments,
             exists r, render_fragments U K cfg color is_title fragments = Some r).
  { intros cfg fragments. unfold render_fragments.
    clear generator colorized.
    assert (Ht : forall pieces a b, exists r, reassemble cfg pieces a b = Some r).
    { induction pieces as [|[cp0 piece] pieces IH]; intros a b; simpl; [eauto|].
      unfold without_space. destruct piece as [|c piece]; [apply IH|].
      simpl first_in.
      repeat match goal with
             | |- context [if ?x then _ else _] => destruct x
             end; apply IH. }
    destruct (Ht (colorized_text_generator U K cfg color is_title fragments)
                [] []) as [r ->].
    simpl. eauto. }
  repeat split.
  - intros fragments. rewrite generator_pieces.
    apply Forall_forall. intros p Hp. apply in_map_iff in Hp as (part & <- & Hp).
    apply filter_In in Hp as [_ Hp]. simpl.
    destruct part as [|c part]; [discriminate|].
    split; [discriminate|]. simpl. eauto.
  - apply reassemble_total.
  - apply Hr.
  - intros entry t. unfold highlight_tags_with_background_color.
    destruct (highlight (journal_config entry)); [apply Hr|eauto].
Qed.

End HighlightFacts.

(** C8: with highlighting switched off the text comes back as it is,
    whatever the entry's tag pattern. *)
Theorem highlight_disabled (U : UCD) (K : Colorama) (entry : Entry)
  (t color : text) (is_title : bool) :
  highlight (journal_config entry) = false ->
  highlight_tags_with_background_color U K entry t color is_title = Some t.
Proof.
  intros H. unfold highlight_tags_with_background_color. now rewrite H.
Qed.

Lemma highlight_disabled_witness :
  highlight_tags_with_background_color ucd_latin1 colorama_ansi
    (spec_entry (mkConfig false (str "@") (str "blue")))
    (str "met @alice  today") (str "red") true
  = Some (str "met @alice  today").
Proof.
  apply (highlight_disabled ucd_latin1 colorama_ansi
           (spec_entry (mkConfig false (str "@") (str "blue")))
           (str "met @alice  today") (str "red") true).
  reflexivity.
Defined.

Lemma render_fragments_spacing_witness :
  render_fragments ucd_latin1 colorama_ansi config_at_hash (str "none") false
    [str "see"; str "you"; str "@bob"; str "."; str "then"; [LF]; str "go"]
  = Some (str "see you@bob. then" ++ [LF] ++ str "go").
Proof.
  apply (render_fragments_spacing ucd_latin1 colorama_ansi config_at_hash
           (str "none") false
           [str "see"; str "you"; str "@bob"; str "."; str "then"; [LF];
            str "go"]).
  repeat constructor; discriminate.
Defined.

(** ** Fragments *)

Lemma split_from_concat (r : pattern) : forall s skip cur,
  concat (split_from r s skip cur) = rev cur ++ skipn skip s.
Proof.
  induction s as [|c s IH]; intros skip cur.
  - simpl. now rewrite skipn_nil.
  - cbn [split_from]. destruct skip as [|k]; [|now rewrite IH].
    destruct (match_here r (c :: s)) as [[|n]|].
    + rewrite IH. simpl. now rewrite <- app_assoc.
    + cbn [concat]. rewrite IH. simpl.
      now rewrite firstn_skipn.
    + rewrite IH. simpl. now rewrite <- app_assoc.
Qed.

Lemma generator_originals (U : UCD) (K : Colorama) (config : Config)
  (color : text) (is_title : bool) (fragments : list text) :
  concat (List.map snd (colorized_text_generator U K config color is_title fragments))
  = concat fragments.
Proof.
  unfold colorized_text_generator.
  induction fragments as [|[|c part] fragments IH]; simpl; [reflexivity|exact IH|].
  destruct (mem c (tagsymbols config)); simpl; now rewrite IH.
Qed.

(** C6: the fragments of the split, in order, give the text back, and so
    do the pieces that are left once the empty ones are dropped. *)
Theorem fragments_rebuild_text (U : UCD) (K : Colorama) (config : Config)
  (color : text) (is_title : bool) (t : text) :
  let fragments := re_split (spec_tag_regex (tagsymbols config)) t in
  concat fragments = t
  /\ concat (List.map snd
               (colorized_text_generator U K config color is_title fragments))
     = t.
Proof.
  assert (H : concat (re_split (spec_tag_regex (tagsymbols config)) t) = t).
  { unfold re_split. now rewrite split_from_concat. }
  split; [exact H|]. now rewrite generator_originals.
Qed.

(** C5, as the split has it: the plain fragments keep the spaces around
    the tags, the loop adds a space in front of the first fragment only,
    and that one is stripped; without colours the result is the text, with
    one space before "@Bob", before "about" and before "#project-x" and
    none before the full stop. *)
Theorem highlight_bob :
  let t := str "Called my friend @Bob about #project-x." in
  re_split (spec_tag_regex (str "@#")) t
  = [str "Called my friend "; str "@Bob"; str " about "; str "#project-x";
     str "."]
  /\ (forall U K color tags is_title,
         highlight_tags_with_background_color U K
           (spec_entry (mkConfig true (str "@#") tags)) t color is_title
         = Some
             (lstrip
                ([SPACE]
                 ++ colorize U K (str "Called my friend ") color is_title
                 ++ colorize U K (str "@Bob") tags true
                 ++ colorize U K (str " about ") color is_title
                 ++ colorize U K (str "#project-x") tags true
                 ++ colorize U K (str ".") color is_title)))
  /\ highlight_tags_with_background_color ucd_latin1 colorama_ansi
       (spec_entry config_at_hash) t (str "none") false
     = Some t.
Proof.
  split; [reflexivity|]. split; [|reflexivity].
  intros U K color tags is_title.
  unfold highlight_tags_with_background_color. cbn [spec_entry journal_config highlight tagsymbols tag_regex].
  replace (re_split (spec_tag_regex (str "@#"))
             (str "Called my friend @Bob about #project-x."))
    with [str "Called my friend "; str "@Bob"; str " about ";
          str "#project-x"; str "."] by reflexivity.
  rewrite render_fragments_spacing by (repeat constructor; discriminate).
  unfold spec_render, with_previous, spec_colorized.
  cbn [combine List.map concat fst snd].
  rewrite app_nil_r. reflexivity.
Qed.

(** C5 as stated fails: the fragments are not the trimmed ones. *)
Lemma highlight_bob_fragments :
  filter (fun part => negb (Nat.eqb (length part) 0))
    (re_split (spec_tag_regex (str "@#"))
       (str "Called my friend @Bob about #project-x."))
  <> [str "Called my friend"; str "@Bob"; str "about"; str "#project-x";
      str "."].
Proof. vm_compute. discriminate. Qed.

(** ** Substitution *)

Lemma sub_one_filter (p : cp -> bool) (s : text) :
  re_sub [(p, One)] [] s = filter (fun c => negb (p c)) s.
Proof.
  unfold re_sub. induction s as [|c s IH]; [reflexivity|].
  cbn [sub_from match_here filter]. destruct (p c); simpl.
  - exact IH.
  - now rewrite IH.
Qed.

Lemma star_run (p : cp -> bool) (k : text -> option nat) (s : text) :
  (forall s', k s' = Some 0) -> star p k s = Some (run p s).
Proof.
  intros Hk. induction s as [|c s IH]; simpl; [apply Hk|].
  destruct (p c); [now rewrite IH|apply Hk].
Qed.

Lemma match_plus (p : cp -> bool) (c : cp) (s : text) :
  match_here [(p, Plus)] (c :: s) = if p c then Some (S (run p s)) else None.
Proof.
  cbn [match_here]. destruct (p c); [|reflexivity].
  now rewrite star_run by reflexivity.
Qed.

Lemma sub_plus_step (p : cp -> bool) (repl : text) (c : cp) (s : text) :
  sub_from [(p, Plus)] repl (c :: s) 0
  = if p c then repl ++ sub_from [(p, Plus)] repl s (run p s)
    else c :: sub_from [(p, Plus)] repl s 0.
Proof.
  cbn [sub_from]. rewrite match_plus. now destruct (p c).
Qed.

Lemma sub_plus_chars (p : cp -> bool) (h : cp) : forall s skip d,
  In d (sub_from [(p, Plus)] [h] s skip) ->
  d = h \/ (In d s /\ p d = false).
Proof.
  induction s as [|c s IH]; intros skip d; [simpl; tauto|].
  destruct skip as [|k].
  - rewrite sub_plus_step. destruct (p c) eqn:Hc; simpl.
    + intros [<-|H]; [now left|]. apply IH in H. tauto.
    + intros [<-|H]; [right; auto|]. apply IH in H. tauto.
  - cbn [sub_from]. intros H. apply IH in H. simpl. tauto.
Qed.

(** After a substitution by [h], itself in the class, no two neighbours
    are in the class; when the run at the start is skipped the result
    does not start in the class either. *)
Lemma sub_plus_no_double (p : cp -> bool) (h : cp) :
  p h = true ->
  forall s,
    no_double p (sub_from [(p, Plus)] [h] s 0) = true
    /\ no_double p (sub_from [(p, Plus)] [h] s (run p s)) = true
    /\ match sub_from [(p, Plus)] [h] s (run p s) with
       | d :: _ => p d = false
       | [] => True
       end.
Proof.
  intros Hh. induction s as [|c s (IH0 & IHr & IHh)]; [simpl; auto|].
  rewrite sub_plus_step. cbn [run]. destruct (p c) eqn:Hc.
  - cbn [sub_from]. repeat split; auto.
    cbn [app no_double]. rewrite IHr.
    destruct (sub_from [(p, Plus)] [h] s (run p s)); [reflexivity|].
    now rewrite IHh, andb_false_r.
  - rewrite sub_plus_step, Hc. repeat split; auto;
      cbn [no_double]; rewrite IH0, Hc;
      now destruct (sub_from [(p, Plus)] [h] s 0).
Qed.

Lemma sub_plus_fixed (p : cp -> bool) (h : cp) : forall s,
  no_double p s = true ->
  (forall d, In d s -> p d = true -> d = h) ->
  sub_from [(p, Plus)] [h] s 0 = s.
Proof.
  induction s as [|c s IH]; intros Hn Hs; [reflexivity|].
  rewrite sub_plus_step. cbn [no_double] in Hn.
  apply andb_prop in Hn as [Hc Hn].
  assert (IH' : sub_from [(p, Plus)] [h] s 0 = s).
  { apply IH; [exact Hn|]. intros d Hd. apply Hs. now right. }
  destruct (p c) eqn:Ec.
  - rewrite (Hs c (or_introl eq_refl) Ec).
    destruct s as [|b s]; [reflexivity|].
    simpl in Hc. apply negb_true_iff in Hc.
    replace (run p (b :: s)) with 0 by (simpl; now rewrite Hc).
    now rewrite IH'.
  - now rewrite IH'.
Qed.

(** ** Normalization and case *)

Section SlugFacts.

Variable U : UCD.

Lemma reorder_insert_In (c d : cp) : forall out,
  In d (reorder_insert U c out) -> d = c \/ In d out.
Proof.
  induction out as [|p out IH]; simpl; [intuition|].
  destruct (_ || _ || _); simpl; [intuition|].
  intros [<-|H]; [auto|]. apply IH in H. tauto.
Qed.

Lemma canonical_order_In (d : cp) (s : text) :
  In d (canonical_order U s) -> In d s.
Proof.
  unfold canonical_order. intros H. apply in_rev in H.
  assert (G : forall s acc,
             In d (fold_left (fun out c => reorder_insert U c out) s acc) ->
             In d s \/ In d acc).
  { clear. induction s as [|c s IH]; simpl; intros acc H; [auto|].
    apply IH in H as [H|H]; [auto|].
    apply reorder_insert_In in H. intuition. }
  apply G in H as [H|[]]. exact H.
Qed.

Lemma canonical_order_starters (s : text) :
  (forall c, In c s -> combining U c = 0%N) -> canonical_order U s = s.
Proof.
  unfold canonical_order. intros Hs.
  assert (G : forall s acc,
             (forall c, In c s -> combining U c = 0%N) ->
             fold_left (fun out c => reorder_insert U c out) s acc
             = rev s ++ acc).
  { clear. induction s as [|c s IH]; simpl; intros acc H; [reflexivity|].
    rewrite IH by auto. rewrite <- app_assoc. simpl. f_equal.
    destruct acc as [|p acc]; simpl; [reflexivity|].
    now rewrite (H c (or_introl eq_refl)). }
  rewrite G by exact Hs. rewrite app_nil_r. apply rev_involutive.
Qed.

Lemma flat_map_singletons (f : cp -> text) (s : text) :
  (forall c, In c s -> f c = [c]) -> flat_map f s = s.
Proof.
  induction s as [|c s IH]; simpl; intros H; [reflexivity|].
  rewrite (H c (or_introl eq_refl)), IH by auto. reflexivity.
Qed.

Lemma NFKD_fixed (s : text) :
  (forall c, In c s -> decomposition U c = [c] /\ combining U c = 0%N) ->
  NFKD U s = s.
Proof.
  intros H. unfold NFKD.
  rewrite flat_map_singletons by (intros c Hc; now apply H).
  apply canonical_order_starters. intros c Hc. now apply H.
Qed.

Lemma lower_from_chars : forall s before d,
  In d (lower_from U before s) ->
  d = SMALL_SIGMA \/ d = FINAL_SIGMA
  \/ exists c, In c s /\ In d (lower_full U c).
Proof.
  induction s as [|c s IH]; intros before d; simpl; [tauto|].
  intros H. apply in_app_or in H as [H|H].
  - destruct (c =? CAPITAL_SIGMA)%N.
    + destruct (final_sigma U before s); destruct H as [<-|[]]; auto.
    + right. right. exists c. auto.
  - apply IH in H as [H|[H|(c' & Hc' & H)]]; auto.
    right. right. exists c'. auto.
Qed.

Lemma lower_from_fixed : forall s before,
  (forall d, In d s -> d <> CAPITAL_SIGMA /\ lower_full U d = [d]) ->
  lower_from U before s = s.
Proof.
  induction s as [|c s IH]; intros before H; simpl; [reflexivity|].
  destruct (H c (or_introl eq_refl)) as [Hc Hl].
  apply N.eqb_neq in Hc. rewrite Hc, Hl, IH by (intros d Hd; apply H; now right).
  reflexivity.
Qed.

Hypothesis rows : slug_rows U.

Lemma NFKD_chars (s : text) (d : cp) :
  In d (NFKD U s) -> decomposition U d = [d].
Proof.
  unfold NFKD. intros H. apply canonical_order_In, in_flat_map in H.
  destruct H as (c & _ & H). exact (decomposed_rows U rows c d H).
Qed.

Lemma word_starter (d : cp) : is_word U d = true -> combining U d = 0%N.
Proof.
  unfold is_word. intros H. apply orb_prop in H as [H|H].
  - now apply (alnum_starters U rows).
  - apply N.eqb_eq in H. subst. apply (underscore_row U rows).
Qed.

Lemma hyphen_slug_code_point : slug_code_point U HYPHEN.
Proof.
  destruct (hyphen_row U rows) as (Hd & Hl & Hc).
  repeat split; auto. discriminate.
Qed.

(** The code points of the text before the last substitution. *)
Lemma lowered_chars (x : text) (d : cp) :
  In d (lower U (strip (re_sub [(not_word_space_hyphen U, One)] []
                          (NFKD U x)))) ->
  is_slug_char U d = true /\ decomposition U d = [d]
  /\ lower_full U d = [d] /\ d <> CAPITAL_SIGMA.
Proof.
  unfold lower. intros H.
  assert (Hsigma : forall e, e = SMALL_SIGMA \/ e = FINAL_SIGMA ->
            is_slug_char U e = true /\ decomposition U e = [e]
            /\ lower_full U e = [e] /\ e <> CAPITAL_SIGMA).
  { intros e He. destruct (sigma_rows U rows e He) as (Ha & Hd & Hl).
    unfold is_slug_char, is_word. rewrite Ha. repeat split; auto.
    destruct He as [-> | ->]; discriminate. }
  apply lower_from_chars in H as [H|[H|(c & Hc & H)]]; [auto..|].
  apply strip_incl in Hc. rewrite sub_one_filter in Hc.
  apply filter_In in Hc as [Hc Hk]. apply negb_true_iff in Hk.
  unfold not_word_space_hyphen in Hk. apply negb_false_iff in Hk.
  apply NFKD_chars in Hc.
  exact (lower_rows U rows c d Hc Hk H).
Qed.

Lemma slugify_chars (x : text) (d : cp) :
  In d (slugify U x) -> slug_code_point U d.
Proof.
  unfold slugify, re_sub. intros H.
  apply sub_plus_chars in H as [-> | [H Hd]]; [apply hyphen_slug_code_point|].
  apply lowered_chars in H as (Hk & Hdec & Hlow & Hsig).
  unfold hyphen_or_space in Hd. apply orb_false_iff in Hd as [Hh Hs].
  unfold is_slug_char in Hk. rewrite Hs, Hh, !orb_false_r in Hk.
  repeat split; auto. now apply word_starter.
Qed.

Lemma slugify_no_double (x : text) :
  no_double hyphen_or_space (slugify U x) = true.
Proof.
  unfold slugify, re_sub. now apply sub_plus_no_double.
Qed.

(** A text of slug code points without two hyphens in a row is its own
    slug. *)
Lemma slugify_fixed (y : text) :
  (forall d, In d y -> slug_code_point U d) ->
  no_double hyphen_or_space y = true ->
  slugify U y = y.
Proof.
  intros Hy Hn. unfold slugify.
  rewrite NFKD_fixed by (intros c Hc; now destruct (Hy c Hc) as (_ & _ & ? & ? & _)).
  rewrite sub_one_filter.
  assert (Hf : filter (fun c => negb (not_word_space_hyphen U c)) y = y).
  { apply forallb_filter_id. apply forallb_forall. intros c Hc.
    destruct (Hy c Hc) as ([-> | Hw] & _).
    - unfold not_word_space_hyphen. rewrite N.eqb_refl, orb_true_r. reflexivity.
    - unfold not_word_space_hyphen. rewrite Hw. reflexivity. }
  rewrite Hf, strip_no_space.
  - unfold lower. rewrite lower_from_fixed.
    + apply sub_plus_fixed; [exact Hn|].
      intros d Hd Hp. destruct (Hy d Hd) as (_ & Hs & _).
      unfold hyphen_or_space in Hp. rewrite Hs, orb_false_r in Hp.
      now apply N.eqb_eq in Hp.
    + intros d Hd. now destruct (Hy d Hd) as (_ & _ & _ & _ & ? & ?).
  - apply forallb_forall. intros c Hc.
    destruct (Hy c Hc) as (_ & Hs & _). now rewrite Hs.
Qed.

Lemma slugify_twice (x : text) : slugify U (slugify U x) = slugify U x.
Proof.
  apply slugify_fixed.
  - intros d. apply slugify_chars.
  - apply slugify_no_double.
Qed.

End SlugFacts.

(** ** The sample tables have the rows [slugify] needs *)

Lemma assoc_In {A : Type} (c : cp) (v : A) : forall table,
  assoc c table = Some v -> In (c, v) table.
Proof.
  induction table as [|[k w] table IH]; simpl; [discriminate|].
  destruct (N.eqb_spec c k) as [->|_].
  - intros [= ->]. now left.
  - intros H. right. now apply IH.
Qed.

Lemma text_eqb_eq (a b : text) : text_eqb a b = true <-> a = b.
Proof.
  unfold text_eqb. destruct (list_eq_dec N.eq_dec a b); split;
    congruence.
Qed.

Lemma lower_rows_test_spec (U : UCD) (c d : cp) :
  lower_rows_test U c = true ->
  decomposition U c = [c] -> is_slug_char U c = true ->
  In d (lower_full U c) ->
  is_slug_char U d = true /\ decomposition U d = [d]
  /\ lower_full U d = [d] /\ d <> CAPITAL_SIGMA.
Proof.
  unfold lower_rows_test. intros Ht Hd Hk Hin.
  apply (proj2 (text_eqb_eq _ _)) in Hd. rewrite Hd, Hk in Ht. simpl in Ht.
  rewrite forallb_forall in Ht. specialize (Ht d Hin).
  apply andb_prop in Ht as [Ht H4]. apply andb_prop in Ht as [Ht H3].
  apply andb_prop in Ht as [H1 H2].
  apply text_eqb_eq in H2, H3. apply negb_true_iff, N.eqb_neq in H4. auto.
Qed.

Lemma below_1024 (P : cp -> Prop) :
  (forall n, In n (seq 0 1024) -> P (N.of_nat n)) ->
  forall c, (c < 1024)%N -> P c.
Proof.
  intros H c Hc. rewrite <- (N2Nat.id c). apply H. apply in_seq. lia.
Qed.

Lemma latin1_lower_beyond (c : cp) :
  (1024 <= c)%N -> latin1_lower c = [c].
Proof.
  intros Hc. unfold latin1_lower, in_ranges, in_range. simpl.
  repeat match goal with
         | |- context [(?a <=? ?b)%N] => destruct (N.leb_spec a b)
         | |- context [(?a =? ?b)%N] => destruct (N.eqb_spec a b)
         end; simpl; try reflexivity; lia.
Qed.

Lemma ucd_latin1_rows : slug_rows ucd_latin1.
Proof.
  constructor.
  - intros c d. cbn [ucd_latin1 decomposition].
    assert (Ht : forallb (fun kv => forallb
                   (fun e => match assoc e latin1_decompositions with
                             | None => true | Some _ => false end) (snd kv))
                   latin1_decompositions = true) by (vm_compute; reflexivity).
    rewrite forallb_forall in Ht.
    destruct (assoc c latin1_decompositions) as [v|] eqn:E.
    + intros Hd. apply assoc_In in E. specialize (Ht _ E). cbn [snd] in Ht.
      rewrite forallb_forall in Ht. specialize (Ht d Hd).
      now destruct (assoc d latin1_decompositions).
    + intros [<-|[]]. now rewrite E.
  - intros c. cbn [ucd_latin1 isalnum combining]. intros Ha.
    assert (Ht : forallb (fun kv => negb (in_ranges latin1_alnum (fst kv)))
                   latin1_marks = true) by (vm_compute; reflexivity).
    rewrite forallb_forall in Ht.
    destruct (assoc c latin1_marks) as [k|] eqn:E; [|reflexivity].
    apply assoc_In in E. specialize (Ht _ E). cbn [fst] in Ht.
    rewrite Ha in Ht. discriminate.
  - intros c d Hd Hk Hin.
    destruct (N.lt_ge_cases c 1024) as [Hc|Hc].
    + revert Hd Hk Hin. apply lower_rows_test_spec.
      revert c Hc. apply below_1024.
      apply (proj1 (forallb_forall
               (fun n => lower_rows_test ucd_latin1 (N.of_nat n))
               (seq 0 1024))).
      vm_compute. reflexivity.
    + cbn [ucd_latin1 lower_full] in Hin.
      rewrite latin1_lower_beyond in Hin by exact Hc.
      destruct Hin as [<-|[]]. repeat split; auto.
      * cbn [ucd_latin1 lower_full]. now apply latin1_lower_beyond.
      * unfold CAPITAL_SIGMA. lia.
  - intros d [-> | ->]; vm_compute; auto.
  - vm_compute. auto.
  - reflexivity.
Qed.

(** C7: for any character database with the rows above, a slug is its own
    slug; with the sample rows, the slug of "Héllo, World!" (é is U+00E9)
    is "hello-world". *)
Theorem slugify_idempotent :
  (forall U, slug_rows U ->
             forall x, slugify U (slugify U x) = slugify U x)
  /\ slugify ucd_latin1 (str "H" ++ [0xE9%N] ++ str "llo, World!")
     = str "hello-world".
Proof.
  split; [|reflexivity]. intros U rows x. now apply slugify_twice.
Qed.

Lemma slugify_idempotent_witness :
  let x := str "  H" ++ [0xE9%N] ++ str "llo --  World! " in
  slugify ucd_latin1 (slugify ucd_latin1 x) = slugify ucd_latin1 x.
Proof.
  exact (proj1 slugify_idempotent ucd_latin1 ucd_latin1_rows
           (str "  H" ++ [0xE9%N] ++ str "llo --  World! ")).
Defined.

Example slugify_runs :
  slugify ucd_latin1 (str "  H" ++ [0xE9%N] ++ str "llo --  World! ")
  = str "hello-world".
Proof. reflexivity. Qed.

(** * Further properties of util.py *)

(** ** More on stripping *)

Lemma lstrip_app_nonspace (x : text) (c : cp) (z : text) :
  is_space c = false -> lstrip (x ++ c :: z) = lstrip x ++ c :: z.
Proof.
  intros Hc. induction x as [|a x IH]; simpl.
  - now rewrite Hc.
  - destruct (is_space a); [exact IH|reflexivity].
Qed.

Lemma rstrip_cons_nonspace (c : cp) (s : text) :
  is_space c = false -> rstrip (c :: s) = c :: rstrip s.
Proof.
  intros Hc. unfold rstrip. simpl.
  rewrite lstrip_app_nonspace by exact Hc.
  now rewrite rev_app_distr.
Qed.

Lemma rstrip_snoc_nonspace (s : text) (c : cp) :
  is_space c = false -> rstrip (s ++ [c]) = s ++ [c].
Proof.
  intros Hc. unfold rstrip. rewrite rev_app_distr. simpl.
  rewrite Hc. simpl. now rewrite rev_involutive.
Qed.

Lemma rstrip_app_spaces (s ws : text) :
  forallb is_space ws = true -> rstrip (s ++ ws) = rstrip s.
Proof.
  revert s. induction ws as [|c ws IH] using rev_ind; intros s H.
  - now rewrite app_nil_r.
  - rewrite forallb_app in H. apply andb_prop in H as [Hws Hc].
    simpl in Hc. rewrite andb_true_r in Hc.
    now rewrite app_assoc, rstrip_snoc_space, IH.
Qed.

Lemma lstrip_lstrip (s : text) : lstrip (lstrip s) = lstrip s.
Proof.
  induction s as [|c s IH]; simpl; [reflexivity|].
  destruct (is_space c) eqn:E; [exact IH|]. simpl. now rewrite E.
Qed.

Lemma lstrip_rstrip_lstrip (s : text) :
  lstrip (rstrip (lstrip s)) = rstrip (lstrip s).
Proof.
  induction s as [|c s IH]; simpl; [reflexivity|].
  destruct (is_space c) eqn:E; [exact IH|].
  rewrite rstrip_cons_nonspace by exact E. simpl. now rewrite E.
Qed.

Lemma rstrip_rstrip (s : text) : rstrip (rstrip s) = rstrip s.
Proof.
  unfold rstrip. now rewrite rev_involutive, lstrip_lstrip.
Qed.

Lemma strip_strip (s : text) : strip (strip s) = strip s.
Proof.
  unfold strip. now rewrite lstrip_rstrip_lstrip, rstrip_rstrip.
Qed.

Lemma filter_lstrip (s : text) :
  filter (fun c => negb (is_space c)) (lstrip s)
  = filter (fun c => negb (is_space c)) s.
Proof.
  induction s as [|c s IH]; simpl; [reflexivity|].
  destruct (is_space c) eqn:E; simpl; [exact IH|]. now rewrite E.
Qed.

(** ** More on the title *)

(** X1: a text that does not start with whitespace splits at its first
    newline: the title is the first line and the body the rest, both
    stripped. *)
Theorem split_title_unpadded (c : cp) (a b : text) :
  is_space c = false -> ~ In LF (c :: a) ->
  split_title (c :: a ++ LF :: b) = (strip (c :: a), strip b).
Proof.
  intros Hc Ha.
  apply (split_title_first_line (c :: a) b); [|exact Ha].
  simpl. now rewrite Hc.
Qed.

Lemma split_title_unpadded_witness :
  split_title (str "Today was fine. Really" ++ [LF] ++ str " More text. ")
  = (str "Today was fine. Really", str "More text.").
Proof.
  apply (split_title_unpadded 0x54%N (str "oday was fine. Really")
           (str " More text. ")).
  - reflexivity.
  - vm_compute. intuition discriminate.
Defined.

(** X2: the body that [split_title] returns has no whitespace at either
    end, and neither has the title unless the title is the whole text. *)
Theorem split_title_stripped (t : text) :
  strip (snd (split_title t)) = snd (split_title t)
  /\ (fst (split_title t) = t
      \/ strip (fst (split_title t)) = fst (split_title t)).
Proof.
  unfold split_title.
  destruct (search SENTENCE_SPLITTER_ONLY_NEWLINE (lstrip t)) as [sep|].
  - simpl. split; [|right]; apply strip_strip.
  - destruct (search SENTENCE_SPLITTER t) as [sep|]; simpl.
    + split; [|right]; apply strip_strip.
    + split; [reflexivity|now left].
Qed.

Lemma closing_not_space (c : cp) :
  is_sentence_terminal c || is_right_quote c || is_closing_bracket c = true ->
  is_space c = false.
Proof.
  intros H. apply orb_prop in H as [H|H]; [apply orb_prop in H as [H|H]|].
  - now apply terminal_not_space.
  - unfold is_right_quote in H. apply mem_In in H. simpl in H.
    repeat (destruct H as [<- | H]; [reflexivity|]). destruct H.
  - unfold is_closing_bracket in H. apply mem_In in H. simpl in H.
    repeat (destruct H as [<- | H]; [reflexivity|]). destruct H.
Qed.

Lemma sentence_end_last (w : text) :
  sentence_end w ->
  exists y c ws,
    w = y ++ c :: ws
    /\ is_sentence_terminal c || is_right_quote c || is_closing_bracket c = true
    /\ forallb is_space ws = true.
Proof.
  intros (t & q & bs & ws & -> & Ht & Hq & Hbs & _ & Hws).
  destruct bs as [|b bs] using rev_ind.
  - destruct Hq as [-> | (c & -> & Hc)].
    + exists [], t, ws. rewrite Ht. auto.
    + exists [t], c, ws. rewrite Hc, orb_true_r. auto.
  - clear IHbs. rewrite forallb_app in Hbs. apply andb_prop in Hbs as [_ Hb].
    simpl in Hb. rewrite andb_true_r in Hb.
    exists ([t] ++ q ++ bs), b, ws. rewrite Hb, orb_true_r.
    repeat split; auto. now rewrite <- !app_assoc.
Qed.

(** X3: when the text has no newline after its leading whitespace and the
    sentence pattern is found, the title is not empty: it ends with the
    sentence terminal, the closing quote or the closing bracket of the
    first sentence end. *)
Theorem split_title_sentence_title (t : text) (sep : Match) :
  search SENTENCE_SPLITTER_ONLY_NEWLINE (lstrip t) = None ->
  search SENTENCE_SPLITTER t = Some sep ->
  exists y c,
    fst (split_title t) = y ++ [c]
    /\ is_sentence_terminal c || is_right_quote c || is_closing_bracket c
       = true.
Proof.
  intros Hn Hs. unfold split_title. rewrite Hn, Hs. simpl fst.
  apply search_from_some in Hs as (k & n & Hk & -> & Hm & _).
  simpl m_end.
  apply match_here_sound in Hm as (w & rest & E & Hlen & Hw).
  apply matches_sentence_end, sentence_end_last in Hw
    as (y & c & ws & -> & Hc & Hws).
  pose proof (closing_not_space c Hc) as Hsp.
  assert (Hcut : slice_to (k + n) t = (firstn k t ++ y) ++ c :: ws).
  { unfold slice_to. rewrite <- (firstn_skipn k t) at 1.
    assert (Hlk : length (firstn k t) = k) by (apply firstn_length_le; exact Hk).
    rewrite firstn_app, Hlk.
    rewrite firstn_all2 by (rewrite Hlk; lia).
    replace (k + n - k) with n by lia.
    rewrite E, <- Hlen, firstn_app, Nat.sub_diag, firstn_all. simpl.
    now rewrite app_nil_r, <- app_assoc. }
  rewrite Hcut. unfold strip.
  rewrite lstrip_app_nonspace by exact Hsp.
  exists (lstrip (firstn k t ++ y)), c. split; [|exact Hc].
  replace (lstrip (firstn k t ++ y) ++ c :: ws)
    with ((lstrip (firstn k t ++ y) ++ [c]) ++ ws)
    by now rewrite <- app_assoc.
  now rewrite rstrip_app_spaces, rstrip_snoc_nonspace.
Qed.

Lemma split_title_sentence_title_witness :
  exists y c,
    fst (split_title (str "  He said stop.)  Then left.")) = y ++ [c]
    /\ is_sentence_terminal c || is_right_quote c || is_closing_bracket c
       = true.
Proof.
  apply (split_title_sentence_title (str "  He said stop.)  Then left.")
           (mkMatch 14 18)); reflexivity.
Defined.

(** ** More on slugs *)

(** X4: whatever the character database, a slug holds no whitespace and no
    two hyphens in a row. *)
Theorem slugify_shape (U : UCD) (x : text) :
  (forall d, In d (slugify U x) -> is_space d = false)
  /\ no_double hyphen_or_space (slugify U x) = true.
Proof.
  unfold slugify, re_sub. split.
  - intros d H. apply sub_plus_chars in H as [-> | [_ H]]; [reflexivity|].
    unfold hyphen_or_space in H. now apply orb_false_iff in H.
  - now apply sub_plus_no_double.
Qed.

(** X5: with the rows [slugify] needs, every code point of a slug is the
    hyphen or a word code point, and it does not decompose, is a starter
    and is in lower case. *)
Theorem slugify_alphabet (U : UCD) (x : text) (d : cp) :
  slug_rows U -> In d (slugify U x) ->
  (d = HYPHEN \/ is_word U d = true)
  /\ decomposition U d = [d]
  /\ combining U d = 0%N
  /\ lower_full U d = [d].
Proof.
  intros rows H.
  destruct (slugify_chars U rows x d H) as (Hw & _ & Hd & Hc & Hl & _).
  auto.
Qed.

Lemma slugify_alphabet_witness :
  (0x65%N = HYPHEN \/ is_word ucd_latin1 0x65%N = true)
  /\ decomposition ucd_latin1 0x65%N = [0x65%N]
  /\ combining ucd_latin1 0x65%N = 0%N
  /\ lower_full ucd_latin1 0x65%N = [0x65%N].
Proof.
  apply (slugify_alphabet ucd_latin1 (str "_ " ++ [0xC9%N] ++ str "t" ++ [0xC9%N])
           0x65%N ucd_latin1_rows).
  vm_compute. auto.
Defined.

(** ** More on highlighting *)

Section RenderFacts.

Variable U : UCD.
Variable K : Colorama.
Variable config : Config.
Variable color : text.
Variable is_title : bool.

Lemma reassemble_content (pieces : list (text * text)) :
  forall final_text previous_piece r,
    reassemble config pieces final_text previous_piece = Some r ->
    filter not_space r
    = filter not_space (final_text ++ concat (List.map fst pieces)).
Proof.
  induction pieces as [|[colorized_piece piece] pieces IH];
    intros acc prev r; simpl.
  - intros [= <-]. now rewrite app_nil_r.
  - destruct (without_space config prev piece) as [[|]|]; [| |discriminate];
      intros H; apply IH in H; rewrite H, !filter_app; simpl;
      now rewrite <- ?app_assoc.
Qed.

(** X6: the loop only adds and removes whitespace: without its whitespace
    the result is the colorized pieces, in order, without theirs. *)
Theorem render_fragments_content (fragments : list text) :
  exists r,
    render_fragments U K config color is_title fragments = Some r
    /\ filter not_space r
       = filter not_space
           (concat
              (List.map fst
                 (colorized_text_generator U K config color is_title
                    fragments))).
Proof.
  unfold render_fragments.
  destruct (reassemble_total config
              (colorized_text_generator U K config color is_title fragments)
              [] []) as [r Hr].
  exists (lstrip r). rewrite Hr. split; [reflexivity|].
  unfold not_space. rewrite filter_lstrip.
  exact (reassemble_content _ _ _ _ Hr).
Qed.

(** X7: when neither colour resolves, highlighting changes whitespace
    only: without whitespace, the result is the fragments. *)
Theorem render_fragments_plain (fragments : list text) (r : text) :
  Fore K (upper U color) = None ->
  Fore K (upper U (colors_tags config)) = None ->
  render_fragments U K config color is_title fragments = Some r ->
  filter not_space r = filter not_space (concat fragments).
Proof.
  intros Hc Ht Hr.
  destruct (render_fragments_content fragments) as (r' & Hr' & E).
  rewrite Hr in Hr'. injection Hr' as <-. rewrite E. f_equal.
  clear Hr E r.
  assert (Hplain : forall part bold,
             colorize U K part color bold = part
             /\ colorize U K part (colors_tags config) bold = part).
  { intros part bold. unfold colorize. now rewrite Hc, Ht. }
  unfold colorized_text_generator.
  induction fragments as [|[|c part] fragments IH]; simpl;
    [reflexivity|exact IH|].
  destruct (mem c (tagsymbols config)); simpl; rewrite IH;
    [rewrite (proj2 (Hplain (c :: part) true))
    |rewrite (proj1 (Hplain (c :: part) is_title))]; reflexivity.
Qed.

End RenderFacts.

Lemma render_fragments_plain_witness :
  filter not_space (str "a  cat@home !")
  = filter not_space
      (concat [str " a "; str "cat"; []; str "@home"; str " !"]).
Proof.
  apply (render_fragments_plain ucd_latin1 colorama_ansi config_at_hash
           (str "none") false
           [str " a "; str "cat"; []; str "@home"; str " !"]
           (str "a  cat@home !"));
    reflexivity.
Defined.

(** ** Colours of the configuration *)

Section ConfigFacts.

Variable U : UCD.
Variable K : Colorama.
Variable ERROR_COLOR : text.

Let valid := valid_color U K.
Let message := invalid_color_message K ERROR_COLOR.

Lemma verify_colors_spec (colors : list (text * text)) :
  forall all_valid_colors,
    verify_colors U K ERROR_COLOR colors all_valid_colors
    = (List.map (fun kc => Print (message (fst kc) (snd kc)))
         (filter (fun kc => negb (valid (snd kc))) colors),
       all_valid_colors && forallb (fun kc => valid (snd kc)) colors).
Proof.
  unfold valid, message.
  induction colors as [|[key color] colors IH]; intros b; simpl.
  - now rewrite andb_true_r.
  - destruct (valid_color U K color); simpl; [apply IH|].
    rewrite IH. simpl. now rewrite andb_false_r.
Qed.

(** X8: [verify_config] prints one line for each colour that is not valid,
    in the order of the configuration, and returns [True] exactly when it
    has printed nothing. *)
Theorem verify_config_report (colors : list (text * text)) :
  fst (verify_config U K ERROR_COLOR colors)
  = List.map (fun kc => Print (message (fst kc) (snd kc)))
      (filter (fun kc => negb (valid (snd kc))) colors)
  /\ (snd (verify_config U K ERROR_COLOR colors) = true
      <-> fst (verify_config U K ERROR_COLOR colors) = []).
Proof.
  unfold verify_config. rewrite verify_colors_spec. simpl.
  split; [reflexivity|].
  induction colors as [|[key color] colors IH]; simpl; [tauto|].
  destruct (valid color); simpl; [exact IH|].
  split; discriminate.
Qed.

(** X9: a configuration that [verify_config] accepts has only colours
    that [colorize] renders: each one, unless it is NONE, wraps the string
    in its escape sequence.  One that it rejects has a colour other than
    NONE for which [colorize] returns the string as it is. *)
Theorem verify_config_colorize (colors : list (text * text)) :
  (snd (verify_config U K ERROR_COLOR colors) = true ->
   forall key color,
     In (key, color) colors -> upper U color <> str "NONE" ->
     exists color_escape,
       color_escape <> []
       /\ forall string bold,
            colorize U K string color bold
            = if bold
              then Style_BRIGHT K ++ color_escape ++ string
                   ++ Style_RESET_ALL K
              else color_escape ++ string ++ Fore_RESET K)
  /\ (snd (verify_config U K ERROR_COLOR colors) = false ->
      exists key color,
        In (key, color) colors /\ upper U color <> str "NONE"
        /\ forall string bold, colorize U K string color bold = string).
Proof.
  unfold verify_config. rewrite verify_colors_spec. simpl. unfold valid.
  split.
  - intros Hall key color Hin Hnone.
    rewrite forallb_forall in Hall. specialize (Hall _ Hin). simpl in Hall.
    unfold valid_color in Hall.
    destruct (text_eqb (upper U color) (str "NONE")) eqn:E;
      [apply text_eqb_eq in E; congruence|].
    destruct (Fore K (upper U color)) as [[|e es]|] eqn:F; try discriminate.
    exists (e :: es). split; [discriminate|].
    intros string bold. unfold colorize. rewrite F. now destruct bold.
  - intros Hsome.
    induction colors as [|[key color] colors IH]; simpl in Hsome;
      [discriminate|].
    destruct (valid_color U K color) eqn:V; simpl in Hsome.
    + destruct (IH Hsome) as (k & c & Hin & Hc). exists k, c.
      split; [now right|exact Hc].
    + exists key, color. split; [now left|].
      unfold valid_color in V.
      destruct (text_eqb (upper U color) (str "NONE")) eqn:E;
        [discriminate|].
      split.
      * intros Heq. apply text_eqb_eq in Heq. congruence.
      * intros string bold. unfold colorize.
        destruct (Fore K (upper U color)) as [[|e es]|];
          [reflexivity|discriminate|reflexivity].
Qed.

End ConfigFacts.

Lemma verify_config_colorize_witness :
  (exists color_escape,
      color_escape <> []
      /\ forall string bold,
           colorize ucd_latin1 colorama_ansi string (str "Cyan") bold
           = if bold
             then Style_BRIGHT colorama_ansi ++ color_escape ++ string
                  ++ Style_RESET_ALL colorama_ansi
             else color_escape ++ string ++ Fore_RESET colorama_ansi)
  /\ exists key color,
       In (key, color) [(str "body", str "none"); (str "tags", str "pink")]
       /\ upper ucd_latin1 color <> str "NONE"
       /\ forall string bold,
            colorize ucd_latin1 colorama_ansi string color bold = string.
Proof.
  split.
  - apply (proj1 (verify_config_colorize ucd_latin1 colorama_ansi
                    (code_to_chars "31")
                    [(str "body", str "none"); (str "tags", str "Cyan")])
             eq_refl (str "tags") (str "Cyan")).
    + right. now left.
    + vm_compute. discriminate.
  - apply (proj2 (verify_config_colorize ucd_latin1 colorama_ansi
                    (code_to_chars "31")
                    [(str "body", str "none"); (str "tags", str "pink")])).
    reflexivity.
Defined.

(** ** The configuration file and the journal scope *)

Lemma lstrip_head_not_space (s : text) (c : cp) (r : text) :
  lstrip s = c :: r -> is_space c = false.
Proof.
  induction s as [|a s IH]; simpl; [discriminate|].
  destruct (is_space a) eqn:E; [exact IH|]. now intros [= <- _].
Qed.

(** X10: [is_config_json] holds exactly when the first code point of the
    file that is not whitespace is an opening brace. *)
Theorem is_config_json_first (config_file : text) :
  is_config_json config_file = true
  <-> exists rest, lstrip config_file = 0x7B%N :: rest.
Proof.
  unfold is_config_json, strip.
  destruct (lstrip config_file) as [|c r] eqn:E.
  - split; [discriminate|]. intros [rest H]. discriminate.
  - rewrite rstrip_cons_nonspace by exact (lstrip_head_not_space _ _ _ E).
    change (starts_with (str "{") (c :: rstrip r))
      with ((0x7B =? c)%N && true).
    rewrite andb_true_r. split.
    + intros H. apply N.eqb_eq in H. subst. now exists r.
    + intros [rest [= -> _]]. reflexivity.
Qed.

Lemma text_eqb_refl (a : text) : text_eqb a a = true.
Proof. now apply text_eqb_eq. Qed.

Lemma text_eqb_neq (a b : text) : text_eqb a b = false <-> a <> b.
Proof.
  split.
  - intros H E. apply text_eqb_eq in E. congruence.
  - intros H. destruct (text_eqb a b) eqn:E; [|reflexivity].
    apply text_eqb_eq in E. contradiction.
Qed.

Lemma get_set (k k' : text) (v : value) (d : dict) :
  get k (set k' v d) = if text_eqb k k' then Some v else get k d.
Proof.
  induction d as [|[k0 v0] d IH]; simpl; [reflexivity|].
  destruct (text_eqb k' k0) eqn:E0; simpl.
  - apply text_eqb_eq in E0. subst k0. now destruct (text_eqb k k').
  - rewrite IH. destruct (text_eqb k k0) eqn:E1; [|reflexivity].
    destruct (text_eqb k k') eqn:E2; [|reflexivity].
    apply text_eqb_eq in E1, E2. subst. now rewrite text_eqb_refl in E0.
Qed.

Lemma get_absent (k : text) (d : dict) :
  ~ In k (List.map fst d) -> get k d = None.
Proof.
  induction d as [|[k0 v0] d IH]; simpl; [reflexivity|].
  intros H. destruct (text_eqb k k0) eqn:E.
  - apply text_eqb_eq in E. subst. tauto.
  - apply IH. tauto.
Qed.

Lemma get_update (k : text) (other : dict) : forall d,
  NoDup (List.map fst other) ->
  get k (update d other)
  = match get k other with Some v => Some v | None => get k d end.
Proof.
  unfold update. induction other as [|[k1 v1] other IH]; intros d H; simpl;
    [reflexivity|].
  inversion H as [|? ? Hnot Hrest]; subst.
  rewrite IH by exact Hrest. rewrite get_set.
  destruct (text_eqb k k1) eqn:E; [|reflexivity].
  apply text_eqb_eq in E. subst. now rewrite get_absent.
Qed.

(** X11: when the journal's entry is a dict, every key it has overrides
    the key of the configuration, and every other key stays as it was. *)
Theorem scope_config_override
  (config : dict) (journal_name : text) (js journal_conf : dict) :
  get (str "journals") config = Some (VDict js) ->
  get journal_name js = Some (VDict journal_conf) ->
  NoDup (List.map fst journal_conf) ->
  exists scoped,
    scope_config config journal_name = Return scoped
    /\ forall k,
         get k scoped
         = match get k journal_conf with
           | Some v => Some v
           | None => get k config
           end.
Proof.
  intros Hj Hn Hd. unfold scope_config. rewrite Hj. simpl.
  unfold has_key. rewrite Hn.
  exists (update config journal_conf). split; [reflexivity|].
  intros k. now apply get_update.
Qed.

Lemma scope_config_override_witness :
  exists scoped,
    scope_config
      [(str "editor", VStr (str "vim"));
       (str "journals",
        VDict [(str "work",
                VDict [(str "journal", VStr (str "w.txt"));
                       (str "editor", VStr (str "nano"))])])]
      (str "work")
    = Return scoped
    /\ forall k,
         get k scoped
         = match get k [(str "journal", VStr (str "w.txt"));
                        (str "editor", VStr (str "nano"))] with
           | Some v => Some v
           | None =>
               get k
                 [(str "editor", VStr (str "vim"));
                  (str "journals",
                   VDict [(str "work",
                           VDict [(str "journal", VStr (str "w.txt"));
                                  (str "editor", VStr (str "nano"))])])]
           end.
Proof.
  apply (scope_config_override _ (str "work")
           [(str "work",
             VDict [(str "journal", VStr (str "w.txt"));
                    (str "editor", VStr (str "nano"))])]).
  - reflexivity.
  - reflexivity.
  - repeat constructor; simpl; intuition discriminate.
Defined.

(** X12: when the journal's entry is not a dict, it becomes the value of
    the key "journal" and no other key changes; a name that is not a
    journal leaves the configuration as it is. *)
Theorem scope_config_plain
  (config : dict) (journal_name : text) (js : dict) :
  get (str "journals") config = Some (VDict js) ->
  (forall v,
      get journal_name js = Some v -> (forall d, v <> VDict d) ->
      exists scoped,
        scope_config config journal_name = Return scoped
        /\ get (str "journal") scoped = Some v
        /\ forall k, k <> str "journal" -> get k scoped = get k config)
  /\ (get journal_name js = None ->
      scope_config config journal_name = Return config).
Proof.
  intros Hj. unfold scope_config. rewrite Hj. simpl. unfold has_key. split.
  - intros v Hn Hv. rewrite Hn.
    exists (set (str "journal") v config).
    split; [destruct v; try reflexivity; now destruct (Hv d)|].
    split.
    + now rewrite get_set, text_eqb_refl.
    + intros k Hk. rewrite get_set.
      apply text_eqb_neq in Hk. now rewrite Hk.
  - now intros ->.
Qed.

Lemma scope_config_plain_witness :
  (exists scoped,
      scope_config
        [(str "journal", VStr (str "a.txt"));
         (str "journals", VDict [(str "work", VStr (str "w.txt"))])]
        (str "work")
      = Return scoped
      /\ get (str "journal") scoped = Some (VStr (str "w.txt"))
      /\ forall k, k <> str "journal" ->
           get k scoped
           = get k
               [(str "journal", VStr (str "a.txt"));
                (str "journals", VDict [(str "work", VStr (str "w.txt"))])])
  /\ scope_config
       [(str "journal", VStr (str "a.txt"));
        (str "journals", VDict [(str "work", VStr (str "w.txt"))])]
       (str "home")
     = Return
         [(str "journal", VStr (str "a.txt"));
          (str "journals", VDict [(str "work", VStr (str "w.txt"))])].
Proof.
  destruct (scope_config_plain
              [(str "journal", VStr (str "a.txt"));
               (str "journals", VDict [(str "work", VStr (str "w.txt"))])]
              (str "work") [(str "work", VStr (str "w.txt"))] eq_refl)
    as [Hplain _].
  destruct (scope_config_plain
              [(str "journal", VStr (str "a.txt"));
               (str "journals", VDict [(str "work", VStr (str "w.txt"))])]
              (str "home") [(str "work", VStr (str "w.txt"))] eq_refl)
    as [_ Hnone].
  split.
  - apply (Hplain (VStr (str "w.txt"))); [reflexivity|discriminate].
  - apply Hnone. reflexivity.
Defined.

(** ** The list of journals *)

Section JournalFacts.

Variable CONFIG_FILE_PATH : text.
Variable DEFAULT_JOURNAL_KEY : text.
Variable repr_dict : dict -> text.

Let header : text := str "Journals defined in " ++ CONFIG_FILE_PATH ++ [LF].

Lemma max_len_ge (keys : list text) (k : text) :
  In k keys -> length k <= max_len keys.
Proof.
  induction keys as [|k0 keys IH]; simpl; [tauto|].
  intros [<-|H]; [lia|]. specialize (IH H). lia.
Qed.

Lemma max_len_le (keys : list text) (n : nat) :
  (forall k, In k keys -> length k <= n) -> max_len keys <= n.
Proof.
  induction keys as [|k0 keys IH]; simpl; intros H; [lia|].
  assert (length k0 <= n) by (apply H; now left).
  assert (max_len keys <= n) by (apply IH; intros k Hk; apply H; now right).
  lia.
Qed.

Lemma ljust_length (s : text) (width : nat) :
  length (ljust s width) = Nat.max (length s) width.
Proof.
  unfold ljust. rewrite length_app, repeat_length. lia.
Qed.

Lemma journal_lines_missing (ml : nat) (items : dict) :
  (exists k c, In (k, VDict c) items /\ get (str "journal") c = None) ->
  forall result,
    journal_lines repr_dict ml items result
    = Raise (KeyError (str "journal")).
Proof.
  induction items as [|[journal cfg] items IH];
    intros (k & c & Hin & Hc) result; [destruct Hin|].
  destruct Hin as [E|Hin].
  - injection E as -> ->. simpl. now rewrite Hc.
  - assert (Hrest : forall r, journal_lines repr_dict ml items r
                              = Raise (KeyError (str "journal")))
      by (apply IH; eauto).
    simpl. destruct cfg as [s|b| |d]; try apply Hrest.
    destruct (get (str "journal") d); [apply Hrest|reflexivity].
Qed.

Lemma journal_lines_spec (ml : nat) (items : dict) :
  (forall k c, In (k, VDict c) items -> get (str "journal") c <> None) ->
  forall result,
    journal_lines repr_dict ml items result
    = Return
        (result
         ++ flat_map
              (fun kc =>
                 journal_line ml (fst kc) (journal_path repr_dict (snd kc)))
              items).
Proof.
  induction items as [|[journal cfg] items IH]; intros Hp result;
    cbn [journal_lines flat_map fst snd].
  - now rewrite app_nil_r.
  - assert (Hrest : forall r,
               journal_lines repr_dict ml items r
               = Return
                   (r ++ flat_map
                           (fun kc =>
                              journal_line ml (fst kc)
                                (journal_path repr_dict (snd kc)))
                           items)).
    { apply IH. intros k c Hin. apply (Hp k c). now right. }
    destruct cfg as [s|b| |d]; try (rewrite Hrest, <- app_assoc; reflexivity).
    pose proof (Hp journal d (or_introl eq_refl)) as Hd.
    unfold journal_path at 1.
    destruct (get (str "journal") d); [|congruence].
    now rewrite Hrest, <- app_assoc.
Qed.

(** X13: a journal whose entry is a dict without the key "journal" makes
    [list_journals] raise KeyError, whatever the other journals are. *)
Theorem list_journals_missing_path
  (config js : dict) (journal : text) (c : dict) :
  get (str "journals") config = Some (VDict js) ->
  In (journal, VDict c) js ->
  get (str "journal") c = None ->
  list_journals CONFIG_FILE_PATH repr_dict config
  = Raise (KeyError (str "journal")).
Proof.
  intros Hj Hin Hc. unfold list_journals. rewrite Hj.
  destruct js as [|item js]; [destruct Hin|].
  apply journal_lines_missing. eauto.
Qed.

(** X14: when every journal has a path, the listing is the header and one
    line for each journal in the order of the configuration: the name,
    filled with spaces up to the length of the longest name or to 20 if
    that is less, then the arrow and the path.  A name is never cut, and
    when no name is longer than 20 all arrows are in one column. *)
Theorem list_journals_lines (config js : dict) :
  get (str "journals") config = Some (VDict js) ->
  js <> [] ->
  (forall k c, In (k, VDict c) js -> get (str "journal") c <> None) ->
  let ml := Nat.min (max_len (List.map fst js)) 20 in
  list_journals CONFIG_FILE_PATH repr_dict config
  = Return
      (header
       ++ flat_map
            (fun kc =>
               str " * " ++ fst kc ++ repeat SPACE (ml - length (fst kc))
               ++ str " -> " ++ journal_path repr_dict (snd kc) ++ [LF])
            js)
  /\ ((forall kc, In kc js -> length (fst kc) <= 20) ->
      forall kc,
        In kc js ->
        length (fst kc ++ repeat SPACE (ml - length (fst kc)))
        = max_len (List.map fst js)).
Proof.
  intros Hj Hne Hp ml. split.
  - unfold list_journals. rewrite Hj.
    destruct js as [|item js]; [congruence|].
    fold ml. rewrite journal_lines_spec by exact Hp.
    unfold header, journal_line, ljust. do 2 f_equal.
    apply flat_map_ext. intros kc. now rewrite <- !app_assoc.
  - intros Hshort kc Hin.
    assert (Hmax : max_len (List.map fst js) <= 20).
    { apply max_len_le. intros k Hk. apply in_map_iff in Hk as (kc' & <- & Hk).
      now apply Hshort. }
    assert (Hge : length (fst kc) <= max_len (List.map fst js)).
    { apply max_len_ge. now apply in_map. }
    rewrite length_app, repeat_length. unfold ml. lia.
Qed.

(** X15: when [get_journal_name] returns, nothing was printed and the
    journal it names is one of the configuration; the words are either the
    ones it got without the first, which is that journal, or all of them,
    with the default journal. *)
Theorem get_journal_name_returns
  (args : Args) (config js : dict) (events : list event) (result : Args) :
  get (str "journals") config = Some (VDict js) ->
  get_journal_name CONFIG_FILE_PATH DEFAULT_JOURNAL_KEY repr_dict args config
  = (events, Return result) ->
  events = []
  /\ has_key (args_journal_name result) js = true
  /\ (args_text args = args_journal_name result :: args_text result
      \/ (args_journal_name result = DEFAULT_JOURNAL_KEY
          /\ args_text result = args_text args)).
Proof.
  intros Hj.
  assert (Hdefault :
            default_journal CONFIG_FILE_PATH DEFAULT_JOURNAL_KEY repr_dict
              args config = (events, Return result) ->
            events = []
            /\ has_key (args_journal_name result) js = true
            /\ args_journal_name result = DEFAULT_JOURNAL_KEY
            /\ args_text result = args_text args).
  { unfold default_journal. rewrite Hj. simpl.
    destruct (has_key DEFAULT_JOURNAL_KEY js) eqn:E.
    - intros [= <- <-]. auto.
    - destruct (list_journals CONFIG_FILE_PATH repr_dict config);
        discriminate. }
  unfold get_journal_name.
  destruct (args_text args) as [|first rest] eqn:Et.
  - intros H. apply Hdefault in H. tauto.
  - rewrite Hj. simpl. destruct (has_key first js) eqn:E.
    + intros [= <- <-]. simpl. auto.
    + intros H. apply Hdefault in H. tauto.
Qed.

(** X16: with an empty dict of journals the function does not leave
    through [sys.exit]: after its first line to stderr, [list_journals]
    raises ValueError. *)
Theorem get_journal_name_no_journals (args : Args) (config : dict) :
  get (str "journals") config = Some (VDict []) ->
  get_journal_name CONFIG_FILE_PATH DEFAULT_JOURNAL_KEY repr_dict args config
  = ([Print (str "No default journal configured.")], Raise ValueError).
Proof.
  intros Hj. unfold get_journal_name, default_journal, list_journals.
  rewrite Hj. simpl. now destruct (args_text args).
Qed.

(** X17: the function leaves through [sys.exit] with code 1 only, and
    only when neither the first word nor the default key is a journal;
    the complaint and the listing have then been printed. *)
Theorem get_journal_name_exits
  (args : Args) (config js : dict) (events : list event) (code : nat) :
  get (str "journals") config = Some (VDict js) ->
  get_journal_name CONFIG_FILE_PATH DEFAULT_JOURNAL_KEY repr_dict args config
  = (events, Exit code) ->
  code = 1
  /\ has_key DEFAULT_JOURNAL_KEY js = false
  /\ match args_text args with
     | first :: _ => has_key first js = false
     | [] => True
     end
  /\ exists listing,
       list_journals CONFIG_FILE_PATH repr_dict config = Return listing
       /\ events = [Print (str "No default journal configured.");
                    Print listing].
Proof.
  intros Hj.
  assert (Hdefault :
            default_journal CONFIG_FILE_PATH DEFAULT_JOURNAL_KEY repr_dict
              args config = (events, Exit code) ->
            code = 1
            /\ has_key DEFAULT_JOURNAL_KEY js = false
            /\ exists listing,
                 list_journals CONFIG_FILE_PATH repr_dict config
                 = Return listing
                 /\ events = [Print (str "No default journal configured.");
                              Print listing]).
  { unfold default_journal. rewrite Hj. simpl.
    destruct (has_key DEFAULT_JOURNAL_KEY js) eqn:E; [discriminate|].
    destruct (list_journals CONFIG_FILE_PATH repr_dict config) as [l|e|c]
      eqn:L.
    - intros [= <- <-]. eauto.
    - discriminate.
    - exfalso. unfold list_journals in L. rewrite Hj in L.
      destruct js as [|item js]; [discriminate|].
      revert L. generalize (str "Journals defined in " ++ CONFIG_FILE_PATH ++ [LF]).
      generalize (Nat.min (max_len (List.map fst (item :: js))) 20).
      generalize (item :: js). clear.
      induction l as [|[k cfg] l IH]; intros n r; simpl; [discriminate|].
      destruct cfg as [s|b| |d]; try apply IH.
      destruct (get (str "journal") d); [apply IH|discriminate]. }
  unfold get_journal_name.
  destruct (args_text args) as [|first rest] eqn:Et.
  - intros H. apply Hdefault in H. tauto.
  - rewrite Hj. simpl. destruct (has_key first js) eqn:E; [discriminate|].
    intros H. apply Hdefault in H. tauto.
Qed.

End JournalFacts.

Lemma list_journals_lines_witness :
  let js := [(str "default", VStr (str "~/j.txt"));
             (str "work", VDict [(str "journal", VStr (str "~/w.txt"))])] in
  list_journals (str "~/.jrnl.yaml") (fun _ => []) [(str "journals", VDict js)]
  = Return
      (str "Journals defined in ~/.jrnl.yaml" ++ [LF]
       ++ str " * default -> ~/j.txt" ++ [LF]
       ++ str " * work    -> ~/w.txt" ++ [LF]).
Proof.
  intros js.
  assert (H := proj1 (list_journals_lines (str "~/.jrnl.yaml") (fun _ => [])
                        [(str "journals", VDict js)] js eq_refl
                        ltac:(discriminate)
                        ltac:(intros k c [E|[E|[]]]; inversion E;
                              discriminate))).
  exact H.
Defined.

Lemma list_journals_missing_path_witness :
  list_journals (str "~/.jrnl.yaml") (fun _ => [])
    [(str "journals",
      VDict [(str "default", VStr (str "~/j.txt"));
             (str "work", VDict [(str "editor", VStr (str "vim"))])])]
  = Raise (KeyError (str "journal")).
Proof.
  apply (list_journals_missing_path (str "~/.jrnl.yaml") (fun _ => [])
           _ [(str "default", VStr (str "~/j.txt"));
              (str "work", VDict [(str "editor", VStr (str "vim"))])]
           (str "work") [(str "editor", VStr (str "vim"))]).
  - reflexivity.
  - right. now left.
  - reflexivity.
Defined.

Lemma get_journal_name_returns_witness :
  let js := [(str "default", VStr (str "~/j.txt"));
             (str "work", VStr (str "~/w.txt"))] in
  @nil event = []
  /\ has_key (str "work") js = true
  /\ ([str "work"; str "met"; str "Bob"] = str "work" :: [str "met"; str "Bob"]
      \/ (str "work" = str "default"
          /\ [str "met"; str "Bob"] = [str "work"; str "met"; str "Bob"])).
Proof.
  intros js.
  apply (get_journal_name_returns (str "~/.jrnl.yaml") (str "default")
           (fun _ => [])
           (mkArgs [] [str "work"; str "met"; str "Bob"])
           [(str "journals", VDict js)] js []
           (mkArgs (str "work") [str "met"; str "Bob"]));
    reflexivity.
Defined.

Lemma get_journal_name_no_journals_witness :
  get_journal_name (str "~/.jrnl.yaml") (str "default") (fun _ => [])
    (mkArgs [] [str "hello"]) [(str "journals", VDict [])]
  = ([Print (str "No default journal configured.")], Raise ValueError).
Proof.
  apply (get_journal_name_no_journals (str "~/.jrnl.yaml") (str "default")
           (fun _ => []) (mkArgs [] [str "hello"])
           [(str "journals", VDict [])]).
  reflexivity.
Defined.

Lemma get_journal_name_exits_witness :
  1 = 1
  /\ has_key (str "default") [(str "work", VStr (str "w"))] = false
  /\ has_key (str "hello") [(str "work", VStr (str "w"))] = false
  /\ exists listing,
       list_journals (str "c") (fun _ => [])
         [(str "journals", VDict [(str "work", VStr (str "w"))])]
       = Return listing
       /\ [Print (str "No default journal configured.");
           Print (str "Journals defined in c" ++ [LF]
                  ++ str " * work -> w" ++ [LF])]
          = [Print (str "No default journal configured."); Print listing].
Proof.
  apply (get_journal_name_exits (str "c") (str "default") (fun _ => [])
           (mkArgs [] [str "hello"])
           [(str "journals", VDict [(str "work", VStr (str "w"))])]
           [(str "work", VStr (str "w"))]
           [Print (str "No default journal configured.");
            Print (str "Journals defined in c" ++ [LF]
                   ++ str " * work -> w" ++ [LF])]
           1);
    reflexivity.
Defined.

(** ** Passwords *)

Lemma prompts_app (a b : list event) :
  prompts (a ++ b) = prompts a + prompts b.
Proof. unfold prompts. now rewrite filter_app, length_app. Qed.

Lemma prompts_snoc_print (events : list event) (line : text) :
  prompts (events ++ [Print line]) = prompts events.
Proof. rewrite prompts_app. unfold prompts at 2. simpl. lia. Qed.

Section PasswordFacts.

Variable decrypt_func : text -> option text.
Variable get_keychain : text -> option text.
Variable typed : nat -> text.

Lemma retry_spec (retries : nat) : forall asked events result,
  retry decrypt_func typed retries asked = (events, result) ->
  prompts events <= retries
  /\ (forall name password, ~ In (SetKeychain name password) events)
  /\ match result with
     | Some r =>
         exists i,
           asked <= i < asked + retries
           /\ decrypt_func (typed i) = Some r
           /\ prompts events + asked = S i
           /\ forall j, asked <= j < i -> decrypt_func (typed j) = None
     | None =>
         prompts events = retries
         /\ forall j, asked <= j < asked + retries ->
                      decrypt_func (typed j) = None
     end.
Proof.
  induction retries as [|retries IH]; intros asked events result;
    cbn [retry].
  - intros [= <- <-]. split; [apply Nat.le_refl|]. split; [intros ? ? []|].
    split; [reflexivity|]. intros j Hj. lia.
  - destruct (decrypt_func (typed asked)) as [r|] eqn:E.
    + intros [= <- <-].
      change (prompts [Print (str "Wrong password, try again.");
                       Getpass password_prompt]) with 1.
      split; [lia|]. split; [intros name password [H|[H|[]]]; discriminate|].
      exists asked. split; [lia|]. split; [exact E|]. split; [lia|].
      intros j Hj. lia.
    + destruct (retry decrypt_func typed retries (S asked)) as [ev res] eqn:R.
      intros [= <- <-].
      destruct (IH _ _ _ R) as (Hp & Hk & Hres).
      change (prompts (Print (str "Wrong password, try again.")
                       :: Getpass password_prompt :: ev))
        with (S (prompts ev)).
      split; [lia|]. split.
      * intros name password [H|[H|H]]; try discriminate.
        now apply (Hk name password).
      * destruct res as [r|].
        -- destruct Hres as (i & Hi & Hd & Hn & Hj).
           exists i. split; [lia|]. split; [exact Hd|]. split; [lia|].
           intros j Hlt. destruct (Nat.eq_dec j asked) as [->|Hne];
             [exact E|apply Hj; lia].
        -- destruct Hres as (Hn & Hj). split; [lia|].
           intros j Hlt. destruct (Nat.eq_dec j asked) as [->|Hne];
             [exact E|apply Hj; lia].
Qed.

(** The password that [decrypt_content] takes from the keychain. *)
Lemma decrypt_content_cases (keychain : option text) (max_attempts : nat) :
  (exists name pwd,
      keychain = Some name /\ get_keychain name = Some pwd /\ pwd <> []
      /\ name <> []
      /\ decrypt_content decrypt_func get_keychain typed keychain max_attempts
         = match decrypt_func pwd with
           | Some result => ([], Return result)
           | None =>
               let (events, result) :=
                 retry decrypt_func typed (max_attempts - 1) 0 in
               match result with
               | Some result =>
                   (SetKeychain name None :: events, Return result)
               | None =>
                   (SetKeychain name None :: events
                    ++ [Print (str "Extremely wrong password.")], Exit 1)
               end
           end)
  \/ ((forall name pwd,
          keychain = Some name -> get_keychain name = Some pwd ->
          name = [] \/ pwd = [])
      /\ decrypt_content decrypt_func get_keychain typed keychain max_attempts
         = match decrypt_func (typed 0) with
           | Some result => ([Getpass password_prompt], Return result)
           | None =>
               let (events, result) :=
                 retry decrypt_func typed (max_attempts - 1) 1 in
               match result with
               | Some result =>
                   (Getpass password_prompt :: events, Return result)
               | None =>
                   (Getpass password_prompt :: events
                    ++ [Print (str "Extremely wrong password.")], Exit 1)
               end
           end).
Proof.
  unfold decrypt_content.
  destruct keychain as [[|c name]|].
  - right. split; [intros name pwd [= <-] _; now left|].
    destruct (decrypt_func (typed 0)); [reflexivity|].
    now destruct (retry decrypt_func typed (max_attempts - 1) 1) as [ev [r|]].
  - destruct (get_keychain (c :: name)) as [[|d pwd]|] eqn:G.
    + right. split; [intros n p [= <-] Hp; rewrite G in Hp;
                     injection Hp as <-; now right|].
      destruct (decrypt_func (typed 0)); [reflexivity|].
      now destruct (retry decrypt_func typed (max_attempts - 1) 1)
        as [ev [r|]].
    + left. exists (c :: name), (d :: pwd).
      split; [reflexivity|]. split; [exact G|].
      split; [discriminate|]. split; [discriminate|].
      destruct (decrypt_func (d :: pwd)); [reflexivity|].
      now destruct (retry decrypt_func typed (max_attempts - 1) 0)
        as [ev [r|]].
    + right. split; [intros n p [= <-] Hp; rewrite G in Hp; discriminate|].
      destruct (decrypt_func (typed 0)); [reflexivity|].
      now destruct (retry decrypt_func typed (max_attempts - 1) 1)
        as [ev [r|]].
  - right. split; [intros name pwd H; discriminate|].
    destruct (decrypt_func (typed 0)); [reflexivity|].
    now destruct (retry decrypt_func typed (max_attempts - 1) 1) as [ev [r|]].
Qed.

(** X18: what [decrypt_content] returns is what [decrypt_func] gave,
    either for the password of the keychain, and then nothing was asked or
    printed, or for a password typed at one of its prompts, and then every
    password typed before was refused. *)
Theorem decrypt_content_returns
  (keychain : option text) (max_attempts : nat)
  (events : list event) (result : text) :
  decrypt_content decrypt_func get_keychain typed keychain max_attempts
  = (events, Return result) ->
  (exists name password,
      keychain = Some name /\ get_keychain name = Some password
      /\ decrypt_func password = Some result /\ events = [])
  \/ (exists i,
         i < Nat.max 1 max_attempts
         /\ decrypt_func (typed i) = Some result
         /\ prompts events = S i
         /\ forall j, j < i -> decrypt_func (typed j) = None).
Proof.
  destruct (decrypt_content_cases keychain max_attempts)
    as [(name & pwd & Hk & Hg & _ & _ & ->) | (_ & ->)].
  - destruct (decrypt_func pwd) as [r|] eqn:E.
    + intros [= <- <-]. left. exists name, pwd. auto.
    + destruct (retry decrypt_func typed (max_attempts - 1) 0) as [ev res]
        eqn:R.
      destruct (retry_spec _ _ _ _ R) as (_ & _ & Hres).
      destruct res as [r|]; [|discriminate]. intros [= <- <-]. right.
      destruct Hres as (i & Hi & Hd & Hn & Hj). exists i.
      change (prompts (SetKeychain name None :: ev)) with (prompts ev).
      split; [lia|]. split; [exact Hd|]. split; [lia|].
      intros j Hlt. apply Hj. lia.
  - destruct (decrypt_func (typed 0)) as [r|] eqn:E.
    + intros [= <- <-]. right. exists 0.
      split; [lia|]. split; [exact E|]. split; [reflexivity|].
      intros j Hj. lia.
    + destruct (retry decrypt_func typed (max_attempts - 1) 1) as [ev res]
        eqn:R.
      destruct (retry_spec _ _ _ _ R) as (_ & _ & Hres).
      destruct res as [r|]; [|discriminate]. intros [= <- <-]. right.
      destruct Hres as (i & Hi & Hd & Hn & Hj). exists i.
      change (prompts (Getpass password_prompt :: ev)) with (S (prompts ev)).
      split; [lia|]. split; [exact Hd|]. split; [lia|].
      intros j Hlt. destruct (Nat.eq_dec j 0) as [->|Hne];
        [exact E|apply Hj; lia].
Qed.

(** X19: [decrypt_content] asks for a password [max_attempts] times at
    most (once when [max_attempts] is 0); it never raises, and it leaves
    through [sys.exit], with code 1, only after [max_attempts - 1] prompts
    at least and only when every password typed was refused. *)
Theorem decrypt_content_attempts
  (keychain : option text) (max_attempts : nat) :
  let run :=
    decrypt_content decrypt_func get_keychain typed keychain max_attempts in
  prompts (fst run) <= Nat.max 1 max_attempts
  /\ (forall e, snd run <> Raise e)
  /\ (forall code,
         snd run = Exit code ->
         code = 1
         /\ max_attempts - 1 <= prompts (fst run)
         /\ forall i, i < prompts (fst run) ->
                      decrypt_func (typed i) = None).
Proof.
  cbv zeta.
  destruct (decrypt_content_cases keychain max_attempts)
    as [(name & pwd & Hk & Hg & _ & _ & ->) | (_ & ->)].
  - destruct (decrypt_func pwd) as [r|] eqn:E.
    + cbn [fst snd]. change (prompts []) with 0.
      split; [lia|]. split; discriminate.
    + destruct (retry decrypt_func typed (max_attempts - 1) 0) as [ev res]
        eqn:R.
      destruct (retry_spec _ _ _ _ R) as (Hp & _ & Hres).
      destruct res as [r|]; cbn [fst snd].
      * change (prompts (SetKeychain name None :: ev)) with (prompts ev).
        split; [lia|]. split; discriminate.
      * change (prompts (SetKeychain name None
                         :: ev ++ [Print (str "Extremely wrong password.")]))
          with (prompts (ev ++ [Print (str "Extremely wrong password.")])).
        rewrite prompts_snoc_print. destruct Hres as (Hn & Hj).
        split; [lia|]. split; [discriminate|].
        intros code [= <-]. split; [reflexivity|]. split; [lia|].
        intros i Hi. apply Hj. lia.
  - destruct (decrypt_func (typed 0)) as [r|] eqn:E.
    + cbn [fst snd]. change (prompts [Getpass password_prompt]) with 1.
      split; [lia|]. split; discriminate.
    + destruct (retry decrypt_func typed (max_attempts - 1) 1) as [ev res]
        eqn:R.
      destruct (retry_spec _ _ _ _ R) as (Hp & _ & Hres).
      destruct res as [r|]; cbn [fst snd].
      * change (prompts (Getpass password_prompt :: ev))
          with (S (prompts ev)).
        split; [lia|]. split; discriminate.
      * change (prompts (Getpass password_prompt
                         :: ev ++ [Print (str "Extremely wrong password.")]))
          with (S (prompts
                     (ev ++ [Print (str "Extremely wrong password.")]))).
        rewrite prompts_snoc_print. destruct Hres as (Hn & Hj).
        split; [lia|]. split; [discriminate|].
        intros code [= <-]. split; [reflexivity|]. split; [lia|].
        intros i Hi. destruct (Nat.eq_dec i 0) as [->|Hne];
          [exact E|apply Hj; lia].
Qed.

(** X20: [decrypt_content] calls [set_keychain(keychain, None)] exactly
    when the keychain gave a password and [decrypt_func] refused it; it
    makes no other call of [set_keychain]. *)
Theorem decrypt_content_forgets
  (keychain : option text) (max_attempts : nat)
  (journal_name : text) (password : option text) :
  In (SetKeychain journal_name password)
    (fst (decrypt_content decrypt_func get_keychain typed keychain
            max_attempts))
  <-> (password = None /\ keychain = Some journal_name
       /\ journal_name <> []
       /\ exists pwd,
            get_keychain journal_name = Some pwd /\ pwd <> []
            /\ decrypt_func pwd = None).
Proof.
  destruct (decrypt_content_cases keychain max_attempts)
    as [(name & pwd & Hk & Hg & Hp & Hn & ->) | (Hno & ->)].
  - destruct (decrypt_func pwd) as [r|] eqn:E.
    + cbn [fst]. split; [intros []|].
      intros (_ & Hk' & _ & pwd' & Hg' & _ & Hd).
      rewrite Hk in Hk'. injection Hk' as <-. congruence.
    + destruct (retry decrypt_func typed (max_attempts - 1) 0) as [ev res]
        eqn:R.
      destruct (retry_spec _ _ _ _ R) as (_ & Hnone & _).
      assert (Hin : In (SetKeychain journal_name password)
                      (SetKeychain name None :: ev)
                    <-> journal_name = name /\ password = None).
      { split.
        - intros [[= <- <-]|H]; [auto|]. now apply Hnone in H.
        - intros [-> ->]. now left. }
      assert (Hgoal : journal_name = name /\ password = None
                      <-> (password = None /\ keychain = Some journal_name
                           /\ journal_name <> []
                           /\ exists pwd0,
                                get_keychain journal_name = Some pwd0
                                /\ pwd0 <> [] /\ decrypt_func pwd0 = None)).
      { split.
        - intros [-> ->]. repeat (split; [assumption || reflexivity|]).
          exists pwd. auto.
        - intros (-> & Hk' & _). rewrite Hk in Hk'. injection Hk' as <-.
          auto. }
      destruct res as [r|]; cbn [fst]; [now rewrite Hin|].
      rewrite <- Hgoal, <- Hin. split.
      * intros [H|H]; [now left|]. apply in_app_or in H as [H|[H|[]]];
          [now right|discriminate].
      * intros [H|H]; [now left|]. right. apply in_or_app. now left.
  - assert (Hnever : ~ (password = None /\ keychain = Some journal_name
                        /\ journal_name <> []
                        /\ exists pwd,
                             get_keychain journal_name = Some pwd
                             /\ pwd <> [] /\ decrypt_func pwd = None)).
    { intros (_ & Hk & Hn & pwd & Hg & Hp & _).
      destruct (Hno _ _ Hk Hg); contradiction. }
    destruct (decrypt_func (typed 0)) as [r|] eqn:E.
    + cbn [fst]. split; [intros [H|[]]; discriminate|tauto].
    + destruct (retry decrypt_func typed (max_attempts - 1) 1) as [ev res]
        eqn:R.
      destruct (retry_spec _ _ _ _ R) as (_ & Hnone & _).
      destruct res as [r|]; cbn [fst]; (split; [|tauto]).
      * intros [H|H]; [discriminate|]. now apply Hnone in H.
      * intros [H|H]; [discriminate|].
        apply in_app_or in H as [H|[H|[]]];
          [now apply Hnone in H|discriminate].
Qed.

End PasswordFacts.

Section NewPasswordFacts.

Variable U : UCD.
Variable typed : nat -> text.

Lemma new_password_spec (prompt : text) (rounds : nat) :
  forall asked events pw n,
    new_password typed prompt rounds asked = Some (events, pw, n) ->
    pw <> []
    /\ (forall name password, ~ In (SetKeychain name password) events)
    /\ exists i,
         asked <= i /\ typed i = pw /\ typed (S i) = pw
         /\ prompts events + asked = S (S i).
Proof.
  induction rounds as [|rounds IH]; intros asked events pw n;
    cbn [new_password]; [discriminate|].
  destruct (typed asked) as [|c rest] eqn:E.
  - destruct (new_password typed prompt rounds (S asked))
      as [[[ev r] m]|] eqn:R; [|discriminate].
    intros [= <- <- <-].
    destruct (IH _ _ _ _ R) as (Hpw & Hk & i & Hi & H1 & H2 & Hn).
    split; [exact Hpw|]. split.
    + intros name password [H|[H|H]]; try discriminate.
      now apply (Hk name password).
    + exists i.
      change (prompts (Getpass prompt
                       :: Print (str "Password can't be an empty string!")
                       :: ev))
        with (S (prompts ev)).
      repeat (split; [assumption || lia|]). lia.
  - destruct (text_eqb (c :: rest) (typed (S asked))) eqn:Q.
    + intros [= <- <- <-]. apply text_eqb_eq in Q.
      split; [discriminate|]. split.
      * intros name password [H|[H|[]]]; discriminate.
      * exists asked.
        change (prompts [Getpass prompt; Getpass (str "Enter password again: ")])
          with 2.
        split; [lia|]. split; [exact E|]. split; [congruence|lia].
    + destruct (new_password typed prompt rounds (S (S asked)))
        as [[[ev r] m]|] eqn:R; [|discriminate].
      intros [= <- <- <-].
      destruct (IH _ _ _ _ R) as (Hpw & Hk & i & Hi & H1 & H2 & Hn).
      split; [exact Hpw|]. split.
      * intros name password [H|[H|[H|H]]]; try discriminate.
        now apply (Hk name password).
      * exists i.
        change (prompts
                  (Getpass prompt :: Getpass (str "Enter password again: ")
                   :: Print (str "Passwords did not match, please try again")
                   :: ev))
          with (S (S (prompts ev))).
        repeat (split; [assumption || lia|]). lia.
Qed.

(** X21: the password that [create_password] returns is not empty and was
    typed twice in a row, at the last two of its password prompts. *)
Theorem create_password_confirmed
  (journal_name prompt response : text) (rounds : nat)
  (events : list event) (pw : text) :
  create_password U typed journal_name prompt response rounds
  = Some (events, pw) ->
  pw <> []
  /\ exists i,
       typed i = pw /\ typed (S i) = pw /\ prompts events = S (S i).
Proof.
  unfold create_password.
  destruct (new_password typed prompt rounds 0) as [[[ev r] m]|] eqn:R;
    [|discriminate].
  destruct (new_password_spec _ _ _ _ _ _ R)
    as (Hpw & _ & i & _ & H1 & H2 & Hn).
  assert (Hev : forall tail,
             prompts tail = 0 -> prompts (ev ++ tail) = S (S i)).
  { intros tail Ht. rewrite prompts_app, Ht. lia. }
  destruct (yesno_answer U response true); intros [= <- <-];
    (split; [exact Hpw|]); exists i;
    (split; [exact H1|]); (split; [exact H2|]); now apply Hev.
Qed.

(** X22: [create_password] hands the new password to [set_keychain]
    unless the answer to its question, in lower case and stripped, is
    "n"; it makes no other call of [set_keychain]. *)
Theorem create_password_keychain
  (journal_name prompt response : text) (rounds : nat)
  (events : list event) (pw : text) (name : text) (password : option text) :
  create_password U typed journal_name prompt response rounds
  = Some (events, pw) ->
  In (SetKeychain name password) events
  <-> (name = journal_name /\ password = Some pw
       /\ strip (lower U response) <> str "n").
Proof.
  unfold create_password.
  destruct (new_password typed prompt rounds 0) as [[[ev r] m]|] eqn:R;
    [|discriminate].
  destruct (new_password_spec _ _ _ _ _ _ R) as (_ & Hk & _).
  assert (Hy : yesno_answer U response true = true
               <-> strip (lower U response) <> str "n").
  { unfold yesno_answer.
    destruct (text_eqb (strip (lower U response)) (str "y")) eqn:Y.
    - apply text_eqb_eq in Y. rewrite Y. split; [discriminate|reflexivity].
    - destruct (text_eqb (strip (lower U response)) (str "n")) eqn:N.
      + apply text_eqb_eq in N. split; [discriminate|congruence].
      + apply text_eqb_neq in N. tauto. }
  destruct (yesno_answer U response true); intros [= <- <-]; split.
  - intros H. apply in_app_or in H as [H|[H|[H|[]]]];
      [now apply Hk in H|discriminate|].
    injection H as <- <-. repeat split. now apply Hy.
  - intros (-> & -> & _). apply in_or_app. right. right. now left.
  - intros H. apply in_app_or in H as [H|[H|[]]];
      [now apply Hk in H|discriminate].
  - intros (_ & _ & H). apply Hy in H. discriminate.
Qed.

Lemma new_password_ends (prompt : text) (k : nat) : forall asked,
  typed (round_start typed k asked) <> [] ->
  typed (S (round_start typed k asked)) = typed (round_start typed k asked) ->
  exists r, new_password typed prompt (S k) asked = Some r.
Proof.
  induction k as [|k IH]; intros asked Hne Heq.
  - cbn [round_start] in *. cbn [new_password].
    destruct (typed asked) as [|c rest] eqn:E; [congruence|].
    rewrite Heq, text_eqb_refl. eauto.
  - cbn [round_start] in *. unfold next_round in *.
    remember (S k) as rounds. cbn [new_password].
    destruct (typed asked) as [|c rest] eqn:E.
    + subst rounds. destruct (IH _ Hne Heq) as [[[ev r] m] ->]. eauto.
    + destruct (text_eqb (c :: rest) (typed (S asked))); [eauto|].
      subst rounds. destruct (IH _ Hne Heq) as [[[ev r] m] ->]. eauto.
Qed.

(** X23: [create_password] returns as soon as the user has typed a
    password that is not empty twice in a row: if that happens in the
    k-th iteration of the loop after the first, k + 1 iterations are
    enough. *)
Theorem create_password_returns
  (journal_name prompt response : text) (k : nat) :
  typed (round_start typed k 0) <> [] ->
  typed (S (round_start typed k 0)) = typed (round_start typed k 0) ->
  exists events pw,
    create_password U typed journal_name prompt response (S k)
    = Some (events, pw).
Proof.
  intros Hne Heq. unfold create_password.
  destruct (new_password_ends prompt k 0 Hne Heq) as [[[ev r] m] ->].
  destruct (yesno_answer U response true); eauto.
Qed.

End NewPasswordFacts.

Lemma create_password_returns_witness :
  exists events pw,
    create_password ucd_latin1 sample_retyped (str "work")
      (str "New password: ") (str "y") 3
    = Some (events, pw).
Proof.
  apply (create_password_returns ucd_latin1 sample_retyped (str "work")
           (str "New password: ") (str "y") 2).
  - vm_compute. discriminate.
  - reflexivity.
Defined.

Lemma decrypt_content_returns_witness :
  (exists name password,
      Some (str "work") = Some name /\ sample_keychain name = Some password
      /\ sample_decrypt password = Some (str "my journal")
      /\ [SetKeychain (str "work") None;
          Print (str "Wrong password, try again."); Getpass password_prompt;
          Print (str "Wrong password, try again."); Getpass password_prompt]
         = [])
  \/ (exists i,
         i < Nat.max 1 3
         /\ sample_decrypt (sample_typed i) = Some (str "my journal")
         /\ prompts
              [SetKeychain (str "work") None;
               Print (str "Wrong password, try again.");
               Getpass password_prompt;
               Print (str "Wrong password, try again.");
               Getpass password_prompt]
            = S i
         /\ forall j, j < i -> sample_decrypt (sample_typed j) = None).
Proof.
  apply (decrypt_content_returns sample_decrypt sample_keychain sample_typed
           (Some (str "work")) 3).
  reflexivity.
Defined.

Lemma decrypt_content_attempts_witness :
  1 = 1
  /\ 2 - 1
     <= prompts
          (fst (decrypt_content sample_decrypt sample_keychain
                  (fun _ => str "guess") None 2))
  /\ forall i,
       i < prompts
             (fst (decrypt_content sample_decrypt sample_keychain
                     (fun _ => str "guess") None 2)) ->
       sample_decrypt (str "guess") = None.
Proof.
  apply (proj2 (proj2 (decrypt_content_attempts sample_decrypt sample_keychain
                         (fun _ => str "guess") None 2)) 1).
  reflexivity.
Defined.

Lemma decrypt_content_forgets_witness :
  In (SetKeychain (str "work") None)
    (fst (decrypt_content sample_decrypt sample_keychain sample_typed
            (Some (str "work")) 3)).
Proof.
  apply (proj2 (decrypt_content_forgets sample_decrypt sample_keychain
                  sample_typed (Some (str "work")) 3 (str "work") None)).
  split; [reflexivity|]. split; [reflexivity|]. split; [discriminate|].
  exists (str "old"). split; [reflexivity|]. split; [discriminate|].
  reflexivity.
Defined.

Lemma create_password_confirmed_witness :
  str "secret" <> []
  /\ exists i,
       sample_retyped i = str "secret"
       /\ sample_retyped (S i) = str "secret"
       /\ prompts
            [Getpass (str "New password: ");
             Print (str "Password can't be an empty string!");
             Getpass (str "New password: ");
             Getpass (str "Enter password again: ");
             Print (str "Passwords did not match, please try again");
             Getpass (str "New password: ");
             Getpass (str "Enter password again: ");
             Input (str "Do you want to store the password in your keychain? [Y/n] ")]
          = S (S i).
Proof.
  apply (create_password_confirmed ucd_latin1 sample_retyped
           (str "work") (str "New password: ") (str " N ") 5).
  reflexivity.
Defined.

Lemma create_password_keychain_witness :
  In (SetKeychain (str "work") (Some (str "secret")))
    [Getpass (str "New password: ");
     Print (str "Password can't be an empty string!");
     Getpass (str "New password: ");
     Getpass (str "Enter password again: ");
     Print (str "Passwords did not match, please try again");
     Getpass (str "New password: ");
     Getpass (str "Enter password again: ");
     Input (str "Do you want to store the password in your keychain? [Y/n] ");
     SetKeychain (str "work") (Some (str "secret"))].
Proof.
  apply (proj2 (create_password_keychain ucd_latin1 sample_retyped
                  (str "work") (str "New password: ") (str "No") 5
                  _ (str "secret") (str "work") (Some (str "secret"))
                  eq_refl)).
  split; [reflexivity|]. split; [reflexivity|]. vm_compute. discriminate.
Defined.

(** ** The first sentence *)

(** X24: when the sentence pattern decides, the text is cut behind the
    first sentence end: the match starts at a sentence boundary, no
    boundary lies before it, and title and body are the two sides of the
    cut, stripped. *)
Theorem split_title_first_sentence (t : text) (sep : Match) :
  search SENTENCE_SPLITTER_ONLY_NEWLINE (lstrip t) = None ->
  search SENTENCE_SPLITTER t = Some sep ->
  sentence_boundary_at t (m_start sep)
  /\ (forall j, j < m_start sep -> ~ sentence_boundary_at t j)
  /\ m_start sep < m_end sep <= length t
  /\ split_title t
     = (strip (firstn (m_end sep) t), strip (skipn (m_end sep) t)).
Proof.
  intros Hn Hs. unfold split_title. rewrite Hn, Hs.
  apply search_from_some in Hs as (k & n & Hk & -> & Hm & Hfirst).
  cbn [m_start m_end]. rewrite !Nat.add_0_l.
  assert (Hat : forall j, sentence_boundary_at t j
                          <-> exists m, match_here SENTENCE_SPLITTER (skipn j t)
                                        = Some m).
  { intros j. rewrite match_here_iff. unfold sentence_boundary_at.
    split; intros (w & rest & E & Hw); exists w, rest;
      (split; [exact E|]); now apply matches_sentence_end. }
  split; [apply Hat; eauto|]. split.
  - intros j Hj Hb. apply Hat in Hb as [m Hb].
    rewrite (Hfirst j Hj) in Hb. discriminate.
  - split; [|reflexivity].
    destruct (match_here_sound _ _ _ Hm) as (w & rest & E & Hlen & Hw).
    apply matches_sentence_end in Hw as (c & q & bs & ws & -> & _).
    assert (Hl : length (skipn k t) = length t - k) by apply length_skipn.
    rewrite E, length_app in Hl. simpl in Hlen. simpl in Hl. lia.
Qed.

Lemma split_title_first_sentence_witness :
  sentence_boundary_at (str "One. Two! Three") 3
  /\ (forall j, j < 3 -> ~ sentence_boundary_at (str "One. Two! Three") j)
  /\ 3 < 5 <= length (str "One. Two! Three")
  /\ split_title (str "One. Two! Three")
     = (strip (firstn 5 (str "One. Two! Three")),
        strip (skipn 5 (str "One. Two! Three"))).
Proof.
  apply (split_title_first_sentence (str "One. Two! Three") (mkMatch 3 5));
    reflexivity.
Defined.
